(** * UMLS inconsistency checker: a shallow embedding of [check_inconsistency.py]

    The development follows the layout of the script:

    - [Py]: the pieces of the Python runtime the script relies on (exceptions,
      [str.strip], [str.split], [sorted], [list.index], insertion-ordered
      dictionaries and [collections.defaultdict]);
    - [Loader]: [load_relationships], the classifier and graph-building loop;
    - [Cycles]: [find_hierarchy_cycles], the depth-first cycle detector;
    - [NX]: the part of the [networkx] interface that is called
      ([DiGraph], [descendants], [shortest_path]);
    - [Broader]: [identify_broader_issues];
    - [Main]: the two graph constructions performed in [main].

    Definitions come first, the lemmas and the theorems about them follow. *)

From Stdlib Require Import Ascii String List Arith Lia.
From Stdlib Require Import OrdersEx.
From stdpp Require Import base tactics option list sets gmap strings sorting relations.

(* ===================================================================== *)
(** * Python runtime                                                      *)
(* ===================================================================== *)

Module Py.

(** Exceptions that the modelled code (or the library calls it makes) can
    raise. *)
Inductive exn : Type :=
| FileNotFoundError
| OSError
| UnicodeDecodeError
| ValueError
| KeyError
| IndexError
| NetworkXError
| NodeNotFound
| NetworkXNoPath.

(** The outcome of running a piece of code: a value, an exception, or the
    exhaustion of the recursion budget of the model. *)
Inductive outcome (A : Type) : Type :=
| Ok (a : A)
| Raise (e : exn)
| NoFuel.

Arguments Ok {A} a.
Arguments Raise {A} e.
Arguments NoFuel {A}.

Definition bind {A B : Type} (m : outcome A) (k : A → outcome B) : outcome B :=
  match m with
  | Ok a => k a
  | Raise e => Raise e
  | NoFuel => NoFuel
  end.

(** [for x in xs: body], threading the state [s]. *)
Fixpoint for_each {A S : Type} (body : A → S → outcome S) (xs : list A) (s : S)
  : outcome S :=
  match xs with
  | [] => Ok s
  | x :: xs' => bind (body x s) (for_each body xs')
  end.

(** [[f(x) for x in xs]] with a body that may raise. *)
Fixpoint map_each {A B : Type} (f : A → outcome B) (xs : list A) : outcome (list B) :=
  match xs with
  | [] => Ok []
  | x :: xs' => bind (f x) (λ y, bind (map_each f xs') (λ ys, Ok (y :: ys)))
  end.

(** ** Strings

    A [string] is read as a Python [str] whose characters have code points
    below 256. *)

(** [str.isspace] on one character: TAB..CR, FS..US, SPACE, NEL and NBSP. *)
Definition isspace (c : ascii) : bool :=
  let n := nat_of_ascii c in
  ((9 <=? n) && (n <=? 13)) || ((28 <=? n) && (n <=? 32)) || (n =? 133) || (n =? 160).

Fixpoint lstrip_chars (cs : list ascii) : list ascii :=
  match cs with
  | c :: cs' => if isspace c then lstrip_chars cs' else cs
  | [] => []
  end.

(** [s.strip()]. *)
Definition strip (s : string) : string :=
  string_of_list_ascii
    (rev (lstrip_chars (rev (lstrip_chars (list_ascii_of_string s))))).

(** [s.split(sep)] for a one-character separator: never an empty list. *)
Fixpoint split (sep : ascii) (s : string) : list string :=
  match s with
  | EmptyString => [EmptyString]
  | String c s' =>
      if Ascii.eqb c sep then EmptyString :: split sep s'
      else match split sep s' with
           | w :: ws => String c w :: ws
           | [] => [String c EmptyString]
           end
  end.

(** [sep.join(l)]. *)
Fixpoint join (sep : string) (l : list string) : string :=
  match l with
  | [] => EmptyString
  | [x] => x
  | x :: l' => x +:+ sep +:+ join sep l'
  end.

(** The line terminator that iterating over a text file leaves at the end
    of a line. *)
Definition newline : string := String (ascii_of_nat 10) EmptyString.

(** [s.count(c)] for a one-character [c]. *)
Fixpoint count_char (c : ascii) (s : string) : nat :=
  match s with
  | EmptyString => 0
  | String c' s' => (if Ascii.eqb c' c then 1 else 0) + count_char c s'
  end.

(** The order of [str] comparison: lexicographic on code points. *)
Definition str_le (a b : string) : Prop := String_as_OT.compare a b ≠ Gt.

#[global] Instance str_le_dec (a b : string) : Decision (str_le a b).
Proof. unfold str_le. destruct (String_as_OT.compare a b); [left|left|right]; congruence. Defined.

(** [sorted(l)] on a list of strings. *)
Definition sorted (l : list string) : list string := merge_sort str_le l.

(** [l.index(x)]: the first position of [x], [None] standing for
    [ValueError]. *)
Fixpoint index (l : list string) (x : string) : option nat :=
  match l with
  | [] => None
  | y :: l' => if decide (y = x) then Some 0 else S <$> index l' x
  end.

(** [l.pop()]: the list without its last element, [None] standing for
    [IndexError] on the empty list. *)
Definition pop (l : list string) : option (list string) :=
  match l with
  | [] => None
  | _ => Some (removelast l)
  end.

(** ** Dictionaries with string keys

    A Python [dict] iterates in insertion order, so it is kept as an
    association list with at most one entry per key. *)
Definition dict (V : Type) : Type := list (string * V).

Fixpoint dict_get {V : Type} (d : dict V) (k : string) : option V :=
  match d with
  | [] => None
  | (k', v) :: d' => if decide (k' = k) then Some v else dict_get d' k
  end.

(** [d[k] = v]: an existing key keeps its position, a new key goes last. *)
Fixpoint dict_set {V : Type} (d : dict V) (k : string) (v : V) : dict V :=
  match d with
  | [] => [(k, v)]
  | (k', v') :: d' =>
      if decide (k' = k) then (k', v) :: d' else (k', v') :: dict_set d' k v
  end.

(** [list(d)]: the keys in insertion order. *)
Definition keys {V : Type} (d : dict V) : list string := d.*1.

(** [d[k]] on a [defaultdict(list)]: a missing key is inserted with a fresh
    empty list, which is what [__missing__] does. *)
Definition defaultdict_getitem (d : dict (list string)) (k : string)
  : list string * dict (list string) :=
  match dict_get d k with
  | Some v => (v, d)
  | None => ([], d ++ [(k, [])])
  end.

End Py.

(* ===================================================================== *)
(** * [load_relationships]                                                *)
(* ===================================================================== *)

Module Loader.
Import Py.

Abbreviation edge := (string * string)%type.

(** The five accumulators of [load_relationships], which are also its return
    value. *)
Record load_state : Type := LoadState {
  child_relations : gset edge;
  broader_relations : gset edge;
  repeats : gmap edge nat;
  reflexives : gset (string * string);
  rel_kinds : gset string
}.

Definition empty_state : load_state := LoadState ∅ ∅ ∅ ∅ ∅.

(** [Counter.__getitem__]: a missing key counts 0. *)
Definition count (c : gmap edge nat) (e : edge) : nat := default 0 (c !! e).

(** [repeats[edge] += 1]. *)
Definition incr (c : gmap edge nat) (e : edge) : gmap edge nat :=
  <[e := count c e + 1]> c.

(** The body of the reading loop, after the line was split into [fields]. *)
Definition classify (fields : list string) (st : load_state) : load_state :=
  if length fields <? 5 then st
  else
    let src_cui := nth 0 fields EmptyString in
    let rel_type := nth 3 fields EmptyString in
    let tgt_cui := nth 4 fields EmptyString in
    let kinds := {[rel_type]} ∪ rel_kinds st in
    if decide (src_cui = tgt_cui) then
      LoadState (child_relations st) (broader_relations st) (repeats st)
                ({[(src_cui, rel_type)]} ∪ reflexives st) kinds
    else
      let edge := (src_cui, tgt_cui) in
      if decide (rel_type = "CHD") then
        let edge := (tgt_cui, src_cui) in
        LoadState ({[edge]} ∪ child_relations st) (broader_relations st)
                  (incr (repeats st) edge) (reflexives st) kinds
      else if decide (rel_type = "PAR") then
        LoadState ({[edge]} ∪ child_relations st) (broader_relations st)
                  (incr (repeats st) edge) (reflexives st) kinds
      else if decide (rel_type = "RB") then
        LoadState (child_relations st) ({[edge]} ∪ broader_relations st)
                  (incr (repeats st) edge) (reflexives st) kinds
      else if decide (rel_type = "RN") then
        let edge := (tgt_cui, src_cui) in
        LoadState (child_relations st) ({[edge]} ∪ broader_relations st)
                  (incr (repeats st) edge) (reflexives st) kinds
      else
        LoadState (child_relations st) (broader_relations st) (repeats st)
                  (reflexives st) kinds.

(** [fields = line.strip().split("|")]. *)
Definition record_of (line : string) : list string := split "|"%char (strip line).

(** One iteration of the loop. *)
Definition load_line (st : load_state) (line : string) : load_state :=
  classify (record_of line) st.

(** The loop over the lines of the file. *)
Definition load_lines (lines : list string) (st : load_state) : load_state :=
  fold_left load_line lines st.

(** What a path names during the call: nothing; something that [open]
    refuses (a directory, a file without read permission); a file that opens
    but whose bytes are not valid UTF-8; or a file that decodes, given by its
    lines as iteration over the file object yields them. *)
Inductive path_status : Type :=
| Missing
| Unreadable
| Undecodable
| TextFile (lines : list string).

Definition filesystem : Type := string → path_status.

(** How a call ends: with an exception (the accumulators of the frame are
    kept for inspection, Python discards them) or with the returned tuple. *)
Inductive load_outcome : Type :=
| Raised (e : exn) (locals : load_state)
| Returned (result : load_state).

(** The function: the accumulators are created, the path is checked
    ([FileNotFoundError] when it does not exist), the file is opened
    ([OSError] when [open] refuses), its lines are counted for the progress
    bar and then it is read line by line. The counting pass touches no
    accumulator, but it decodes the whole file with the strict UTF-8 codec:
    a file that does not decode raises [UnicodeDecodeError] there, before the
    first line is processed. *)
Definition load_relationships (fs : filesystem) (filepath : string) : load_outcome :=
  let st := empty_state in
  match fs filepath with
  | Missing => Raised FileNotFoundError st
  | Unreadable => Raised OSError st
  | Undecodable => Raised UnicodeDecodeError st
  | TextFile lines => Returned (load_lines lines st)
  end.

(** ** Vocabulary for the statements *)

(** Some line of [lines] has at least five fields and relates [src] to [tgt]
    by the code [rel]. *)
Definition relates (lines : list string) (rel src tgt : string) : Prop :=
  ∃ line, line ∈ lines ∧
    5 ≤ length (record_of line) ∧
    nth 0 (record_of line) EmptyString = src ∧
    nth 3 (record_of line) EmptyString = rel ∧
    nth 4 (record_of line) EmptyString = tgt.

(** The record of [line] is counted under the edge [e]: it has at least
    five fields, distinct ends, and one of the four codes, [e] being its
    normalised edge. *)
Definition counted_under (e : edge) (line : string) : Prop :=
  let f := record_of line in
  let src := nth 0 f EmptyString in
  let rel := nth 3 f EmptyString in
  let tgt := nth 4 f EmptyString in
  5 ≤ length f ∧ src ≠ tgt ∧
  (((rel = "PAR" ∨ rel = "RB") ∧ e = (src, tgt)) ∨
   ((rel = "CHD" ∨ rel = "RN") ∧ e = (tgt, src))).

#[global] Instance counted_under_dec e line : Decision (counted_under e line).
Proof. unfold counted_under. cbv zeta. apply _. Defined.

End Loader.

(* ===================================================================== *)
(** * Directed graphs given by adjacency dictionaries                     *)
(* ===================================================================== *)

Module Graph.
Import Py.

(** [v] is listed among the children (successors) of [u]. *)
Definition edge_of (d : dict (list string)) (u v : string) : Prop :=
  ∃ l, dict_get d u = Some l ∧ v ∈ l.

(** The list stored under [u], empty when [u] is not a key. *)
Definition successors (d : dict (list string)) (u : string) : list string :=
  default [] (dict_get d u).

(** Consecutive elements are related. *)
Fixpoint chain (R : string → string → Prop) (l : list string) : Prop :=
  match l with
  | x :: (y :: _) as l' => R x y ∧ chain R l'
  | _ => True
  end.

(** [p] lists the nodes of a directed walk from [s] to [t]. *)
Definition is_walk (d : dict (list string)) (s t : string) (p : list string) : Prop :=
  head p = Some s ∧ last p = Some t ∧ chain (edge_of d) p.

(** A walk with the least number of edges among the walks from [s] to [t]. *)
Definition is_shortest_walk (d : dict (list string)) (s t : string) (p : list string) : Prop :=
  is_walk d s t p ∧ ∀ q, is_walk d s t q → length p ≤ length q.

(** [t] can be reached from [s] along edges (in zero or more steps). *)
Definition reachable (d : dict (list string)) (s t : string) : Prop :=
  rtc (edge_of d) s t.

(** [loop] lists the nodes of a directed cycle: distinct nodes, each with an
    edge to the next, and the last with an edge to the first. *)
Definition is_cycle (d : dict (list string)) (loop : list string) : Prop :=
  NoDup loop ∧ chain (edge_of d) loop ∧
  ∃ a b, head loop = Some a ∧ last loop = Some b ∧ edge_of d b a.


Definition acyclic (d : dict (list string)) : Prop := ∀ u, ¬ tc (edge_of d) u u.


(** The nodes [p] and [v] lie together on one of the [loops]. *)
Definition covered (loops : list (list string)) (p v : string) : Prop :=
  Exists (λ loop, p ∈ loop ∧ v ∈ loop) loops.

#[global] Instance covered_dec loops p v : Decision (covered loops p v).
Proof. unfold covered. apply _. Defined.

(** An edge of [d] whose two ends lie on no common loop of [loops]. *)
Definition uncovered (d : dict (list string)) (loops : list (list string))
    (p v : string) : Prop :=
  edge_of d p v ∧ ¬ covered loops p v.

End Graph.

(* ===================================================================== *)
(** * [find_hierarchy_cycles]                                             *)
(* ===================================================================== *)

Module Cycles.
Import Py Graph.

(** The objects the closure [dfs] works on: the four accumulators of the
    enclosing call, the dictionary it received ([adjacency_list], a
    [defaultdict(list)] in [main]) and the list object passed as [trail],
    which all recursive calls share. *)
Record dfs_state : Type := DfsState {
  visited : gset string;
  stack : gset string;
  found_cycles : list (list string);
  seen_signatures : gset (list string);
  adjacency_list : dict (list string);
  trail : list string
}.

Definition with_trail (t : list string) (σ : dfs_state) : dfs_state :=
  DfsState (visited σ) (stack σ) (found_cycles σ) (seen_signatures σ)
           (adjacency_list σ) t.

(** [visited.add(current); stack.add(current); trail.append(current)]
    followed by the evaluation of [adjacency_list[current]], which yields the
    list to iterate and may insert a key. *)
Definition enter (current : string) (σ : dfs_state) : list string * dfs_state :=
  let '(neighbors, d) := defaultdict_getitem (adjacency_list σ) current in
  (neighbors,
   DfsState ({[current]} ∪ visited σ) ({[current]} ∪ stack σ) (found_cycles σ)
            (seen_signatures σ) d (trail σ ++ [current])).

(** [trail.pop(); stack.remove(current)]. *)
Definition leave (current : string) (σ : dfs_state) : outcome dfs_state :=
  match pop (trail σ) with
  | None => Raise IndexError
  | Some t =>
      if decide (current ∈ stack σ) then
        Ok (DfsState (visited σ) (stack σ ∖ {[current]}) (found_cycles σ)
                     (seen_signatures σ) (adjacency_list σ) t)
      else Raise KeyError
  end.

(** The branch taken when [current] is on the recursion stack. *)
Definition record_loop (current : string) (σ : dfs_state) : outcome dfs_state :=
  match index (trail σ) current with
  | None => Raise ValueError
  | Some idx =>
      let loop := drop idx (trail σ) in
      let key := sorted loop in
      if decide (key ∈ seen_signatures σ) then Ok σ
      else Ok (DfsState (visited σ) (stack σ) (found_cycles σ ++ [loop])
                        ({[key]} ∪ seen_signatures σ) (adjacency_list σ) (trail σ))
  end.

(** The closure [dfs(current, trail)]; [fuel] bounds the recursion depth. *)
Fixpoint dfs (fuel : nat) (current : string) (σ : dfs_state) : outcome dfs_state :=
  match fuel with
  | 0 => NoFuel
  | S fuel' =>
      if decide (current ∈ stack σ) then record_loop current σ
      else if decide (current ∈ visited σ) then Ok σ
      else
        let '(neighbors, σ1) := enter current σ in
        bind (for_each (dfs fuel') neighbors σ1) (leave current)
  end.

(** Every identifier that occurs in the dictionary, as a key or as a child. *)
Definition mentioned (d : dict (list string)) : list string :=
  keys d ++ concat d.*2.

(** The recursion never goes deeper than one call per identifier plus one. *)
Definition depth_budget (d : dict (list string)) : nat := S (length (mentioned d)).

(** The body of the loop over [list(adjacency_list)]. *)
Definition visit_root (fuel : nat) (node : string) (σ : dfs_state) : outcome dfs_state :=
  if decide (node ∈ visited σ) then Ok σ else dfs fuel node (with_trail [] σ).

(** The detector. Besides [found_cycles], the result shows the dictionary
    object it was given as the call leaves it. *)
Definition find_hierarchy_cycles (adjacency_list : dict (list string))
  : outcome (list (list string) * dict (list string)) :=
  let σ0 := DfsState ∅ ∅ [] ∅ adjacency_list [] in
  bind (for_each (visit_root (depth_budget adjacency_list)) (keys adjacency_list) σ0)
       (λ σ, Ok (found_cycles σ, Cycles.adjacency_list σ)).

(** ** The invariant of the traversal *)

(** The identifiers of the dictionary, as a set. *)
Definition universe (d : dict (list string)) : gset string :=
  list_to_set (mentioned d).

(** [d] followed by one entry with an empty list for each key of [extra]. *)
Definition with_empty_entries (d : dict (list string)) (extra : list string)
  : dict (list string) :=
  d ++ ((λ k, (k, [])) <$> extra).

(** What holds of the state between two steps of the traversal of [d0]. *)
Record dfs_inv (d0 : dict (list string)) (σ : dfs_state) : Prop := DfsInv {
  inv_adj : (∃ extra,
    adjacency_list σ = with_empty_entries d0 extra ∧ NoDup extra ∧
    (∀ k, k ∈ extra → (k ∉ keys d0) ∧ (k ∈ visited σ)));
  inv_stack : stack σ = list_to_set (trail σ);
  inv_nodup : NoDup (trail σ);
  inv_chain : chain (edge_of d0) (trail σ);
  inv_stack_visited : stack σ ⊆ visited σ;
  inv_visited_universe : visited σ ⊆ universe d0;
  inv_visited_keys : (∀ u, u ∈ visited σ → u ∈ keys (adjacency_list σ));
  inv_found : Forall (is_cycle d0) (found_cycles σ);
  inv_seen : seen_signatures σ = list_to_set (sorted <$> found_cycles σ);
  inv_signatures : NoDup (sorted <$> found_cycles σ);
  inv_finished : (found_cycles σ = [] →
    ∀ u, u ∈ visited σ → u ∉ stack σ → ¬ tc (edge_of d0) u u);
  inv_closed :
    (∀ u v, u ∈ visited σ → u ∉ stack σ → edge_of d0 u v → v ∈ visited σ);
  inv_reached : (∀ u, u ∈ visited σ → u ∈ keys d0 ∨ ∃ w, edge_of d0 w u);
  inv_covered :
    (∀ u, u ∈ visited σ → u ∉ stack σ → ¬ tc (uncovered d0 (found_cycles σ)) u u)
}.

(** What a call [dfs(current, trail)] started in [σ] guarantees of the state
    [σ'] it returns in. *)
Definition dfs_post (d0 : dict (list string)) (current : string)
    (σ σ' : dfs_state) : Prop :=
  dfs_inv d0 σ' ∧ stack σ' = stack σ ∧ trail σ' = trail σ ∧
  visited σ ⊆ visited σ' ∧ current ∈ visited σ' ∧
  (∃ more, found_cycles σ' = found_cycles σ ++ more) ∧
  (found_cycles σ' = [] → current ∉ stack σ') ∧
  (∀ u, last (trail σ) = Some u → current ∈ stack σ' →
        covered (found_cycles σ') u current).

End Cycles.

(* ===================================================================== *)
(** * The part of [networkx] that the script calls                        *)
(* ===================================================================== *)

Module NX.
Import Py Graph.

(** [nx.DiGraph]: the successor dictionary [_adj], node to successors, both
    levels in insertion order. *)
Definition DiGraph : Type := dict (list string).

(** [G.nodes], also the order of [for n in G]. *)
Definition nodes (G : DiGraph) : list string := keys G.

(** [G.add_node(n)]. *)
Definition add_node (n : string) (G : DiGraph) : DiGraph :=
  match dict_get G n with
  | Some _ => G
  | None => G ++ [(n, [])]
  end.

(** [G.add_edge(u, v)]: both endpoints become nodes, [u] first. *)
Definition add_edge (u v : string) (G : DiGraph) : DiGraph :=
  let G := add_node v (add_node u G) in
  let succ := successors G u in
  if decide (v ∈ succ) then G else dict_set G u (succ ++ [v]).

(** [G.add_edges_from(ebunch)]. *)
Definition add_edges_from (ebunch : list (string * string)) (G : DiGraph) : DiGraph :=
  fold_left (λ G e, add_edge e.1 e.2 G) ebunch G.

(** What every graph built through the methods above satisfies: one entry
    per node, successors listed once, and every successor a node. *)
Definition wf_graph (G : DiGraph) : Prop :=
  NoDup (nodes G) ∧
  Forall (λ kv, NoDup kv.2 ∧ Forall (λ v, v ∈ nodes G) kv.2) G.

(** The two library functions called by [identify_broader_issues]. Both are
    queries: the library documents no effect on [G]. *)
Class NetworkX : Type := {
  descendants : DiGraph → string → outcome (gset string);
  shortest_path : DiGraph → string → string → outcome (list string)
}.

(** Their documented behaviour on a graph that contains the nodes passed:
    [descendants(G, s)] is the set of nodes reachable from [s], [s] itself
    left out; [shortest_path(G, s, t)] is a walk from [s] to [t] with the
    least number of edges when [t] is reachable from [s] (which of several
    such walks is not specified). *)
Definition nx_contract (nx : NetworkX) : Prop :=
  (∀ G s, wf_graph G → s ∈ nodes G →
     ∃ D, descendants G s = Ok D ∧ ∀ t, t ∈ D ↔ t ≠ s ∧ reachable G s t) ∧
  (∀ G s t, wf_graph G → s ∈ nodes G → t ∈ nodes G → reachable G s t →
     ∃ p, shortest_path G s t = Ok p ∧ is_shortest_walk G s t p).

(** ** A breadth-first implementation of the interface *)

(** One more layer: the nodes of [R] and their successors. *)
Definition expand (G : DiGraph) (R : gset string) : gset string :=
  R ∪ list_to_set (elements R ≫= successors G).

(** The nodes at distance at most [k] from [s]. *)
Fixpoint within (G : DiGraph) (s : string) (k : nat) : gset string :=
  match k with
  | 0 => {[s]}
  | S k' => expand G (within G s k')
  end.

Definition bfs_descendants (G : DiGraph) (s : string) : outcome (gset string) :=
  if decide (s ∈ nodes G) then Ok (within G s (length (nodes G)) ∖ {[s]})
  else Raise NetworkXError.

(** A walk from [s] to [t] read backwards through the layers, for [t] at
    distance at most [k]. *)
Fixpoint trace_back (G : DiGraph) (s : string) (k : nat) (t : string) : list string :=
  match k with
  | 0 => [t]
  | S k' =>
      if decide (t ∈ within G s k') then trace_back G s k' t
      else match List.find (λ u, bool_decide (t ∈ successors G u))
                           (elements (within G s k')) with
           | Some u => trace_back G s k' u ++ [t]
           | None => [t]
           end
  end.

Definition bfs_shortest_path (G : DiGraph) (s t : string) : outcome (list string) :=
  if decide (s ∈ nodes G ∧ t ∈ nodes G) then
    if decide (t ∈ within G s (length (nodes G))) then
      Ok (trace_back G s (length (nodes G)) t)
    else Raise NetworkXNoPath
  else Raise NodeNotFound.

Definition bfs_nx : NetworkX :=
  {| descendants := bfs_descendants; shortest_path := bfs_shortest_path |}.

End NX.

(* ===================================================================== *)
(** * [identify_broader_issues]                                           *)
(* ===================================================================== *)

Module Broader.
Import Py Graph NX.

(** One entry of [problematic_pairs]: the dictionary with keys ["from"],
    ["to"] and ["path"]. *)
Record contradiction : Type := Contradiction {
  c_from : string;
  c_to : string;
  c_path : list string
}.

(** The body of the inner loop. *)
Definition check_pair `{NetworkX} (graph : DiGraph)
    (descendants_map : dict (gset string)) (source target : string)
    (problematic_pairs : list contradiction) : outcome (list contradiction) :=
  if decide (source ∈ default ∅ (dict_get descendants_map target)) then
    bind (shortest_path graph source target) (λ fwd_path,
    bind (shortest_path graph target source) (λ back_path,
    Ok (problematic_pairs ++
        [Contradiction source target (fwd_path ++ drop 1 back_path)])))
  else Ok problematic_pairs.

(** The body of the outer loop; [descendants_map[source]] raises [KeyError]
    on a missing key. *)
Definition check_source `{NetworkX} (graph : DiGraph)
    (descendants_map : dict (gset string)) (source : string)
    (problematic_pairs : list contradiction) : outcome (list contradiction) :=
  match dict_get descendants_map source with
  | None => Raise KeyError
  | Some ds =>
      for_each (check_pair graph descendants_map source) (elements ds)
               problematic_pairs
  end.

(** The detector. Besides [problematic_pairs], the result shows the graph
    object it was given as the call leaves it: no statement of the function
    writes to it. *)
Definition identify_broader_issues `{NetworkX} (graph : DiGraph)
  : outcome (list contradiction * DiGraph) :=
  bind (map_each (λ n, bind (descendants graph n) (λ ds, Ok (n, ds))) (nodes graph))
       (λ descendants_map,
  bind (for_each (check_source graph descendants_map) (nodes graph) [])
       (λ problematic_pairs, Ok (problematic_pairs, graph))).

(** ** Vocabulary for the statements *)

(** The ordered pair a report is about. *)
Definition pair_of (c : contradiction) : string * string := (c_from c, c_to c).

(** The number of reports about the ordered pair (s, t). *)
Definition occurrences (s t : string) (out : list contradiction) : nat :=
  length (filter (λ c, pair_of c = (s, t)) out).

(** Two distinct nodes of the graph, each reachable from the other. *)
Definition contradictory (G : DiGraph) (s t : string) : Prop :=
  s ∈ nodes G ∧ t ∈ nodes G ∧ s ≠ t ∧ reachable G s t ∧ reachable G t s.

(** The examples of the specification: the broader-than edges
    {(A,B), (B,A)} and the three-node cycle {(A,B), (B,C), (C,A)}. *)
Definition mutual_pair : DiGraph := add_edges_from [("A", "B"); ("B", "A")] [].

Definition three_cycle : DiGraph :=
  add_edges_from [("A", "B"); ("B", "C"); ("C", "A")] [].

(** What the dictionary comprehension of the detector builds for [G]: one
    entry per node, holding the nodes reachable from it, itself left out. *)
Definition descendants_map_ok (G : DiGraph) (dm : dict (gset string)) : Prop :=
  keys dm = nodes G ∧
  ∀ n D, dict_get dm n = Some D → ∀ t, t ∈ D ↔ t ≠ n ∧ reachable G n t.

(** The ordered pairs reported for the source [s], in the order of the inner
    loop. *)
Definition pairs_from (dm : dict (gset string)) (s : string)
  : list (string * string) :=
  (λ t, (s, t)) <$>
    filter (λ t, s ∈ default ∅ (dict_get dm t)) (elements (default ∅ (dict_get dm s))).

(** The reported path is a shortest walk from source to target followed by
    a shortest walk back, the first node of the latter dropped. *)
Definition witness_ok (G : DiGraph) (c : contradiction) : Prop :=
  ∃ fwd back,
    c_path c = fwd ++ drop 1 back ∧
    is_shortest_walk G (c_from c) (c_to c) fwd ∧
    is_shortest_walk G (c_to c) (c_from c) back.

End Broader.

(* ===================================================================== *)
(** * The graph constructions of [main]                                   *)
(* ===================================================================== *)

Module Main.
Import Py Graph NX Loader.

(** [tree[parent].append(child)] on a [defaultdict(list)]. *)
Definition tree_append (tree : dict (list string)) (e : string * string)
  : dict (list string) :=
  let '(children, tree') := defaultdict_getitem tree e.1 in
  dict_set tree' e.1 (children ++ [e.2]).

(** [tree = defaultdict(list); for parent, child in child_links: ...]. A set
    is iterated in an order of Python's choosing; [elements] fixes one. *)
Definition build_tree (child_links : gset (string * string)) : dict (list string) :=
  fold_left tree_append (elements child_links) [].

(** [bt_graph = nx.DiGraph(); bt_graph.add_edges_from(broader_links)]. *)
Definition build_bt_graph (broader_links : gset (string * string)) : DiGraph :=
  add_edges_from (elements broader_links) [].

End Main.

(* ===================================================================== *)
(** * [write_reports]                                                     *)
(* ===================================================================== *)

Module Reports.
Import Py Loader Broader.

(** A value handed to [csv.writer] in a row: text, an integer, or a float
    (the elapsed times of [main]); floats are kept abstract. *)
Inductive cell (F : Type) : Type :=
| Str (s : string)
| Int (n : nat)
| Float (x : F).

Arguments Str {F} s.
Arguments Int {F} n.
Arguments Float {F} x.

(** One file written by [write_csv]: its name inside [out_dir], the header
    row and the data rows. *)
Record csv_file (F : Type) : Type := CsvFile {
  file_name : string;
  headers : list string;
  rows : list (list (cell F))
}.

Arguments CsvFile {F} file_name headers rows.
Arguments file_name {F} c.
Arguments headers {F} c.
Arguments rows {F} c.

(** The inner function [write_csv]: the file is named
    [f"{file_name}_{timestamp}.csv"]. *)
Definition write_csv {F : Type} (timestamp name : string) (headers : list string)
    (rows : list (list (cell F))) : csv_file F :=
  CsvFile (name +:+ "_" +:+ timestamp +:+ ".csv") headers rows.

(** [[[i+1, " -> ".join(c)] for i, c in enumerate(cycles)]]. *)
Definition cycle_rows {F : Type} (cycles : list (list string)) : list (list (cell F)) :=
  imap (λ i c, [Int (i + 1); Str (join " -> " c)]) cycles.

(** [[[i+1, d["from"], d["to"], " -> ".join(d["path"])] for i, d in
    enumerate(contradictions)]]. *)
Definition contradiction_rows {F : Type} (contradictions : list contradiction)
  : list (list (cell F)) :=
  imap (λ i d, [Int (i + 1); Str (c_from d); Str (c_to d); Str (join " -> " (c_path d))])
       contradictions.

(** [[(a, b, count) for (a, b), count in repeated.items() if count > 1]]. *)
Definition duplicate_rows {F : Type} (repeated : gmap (string * string) nat)
  : list (list (cell F)) :=
  (λ kv, [Str kv.1.1; Str kv.1.2; Int kv.2]) <$>
    filter (λ kv, 1 < kv.2) (map_to_list repeated).

(** [list(reflexive_links)]. *)
Definition self_link_rows {F : Type} (reflexive_links : gset (string * string))
  : list (list (cell F)) :=
  (λ p, [Str p.1; Str p.2]) <$> elements reflexive_links.

(** [list(stats.items())]. *)
Definition stat_rows {F : Type} (stats : list (string * cell F)) : list (list (cell F)) :=
  (λ kv, [Str kv.1; kv.2]) <$> stats.

(** The function, as the list of the files it writes, in the order of
    writing. The timestamp is the text [datetime.now()] is formatted to. *)
Definition write_reports {F : Type} (cycles : list (list string))
    (contradictions : list contradiction)
    (repeated : gmap (string * string) nat)
    (reflexive_links : gset (string * string))
    (stats : list (string * cell F)) (timestamp : string) : list (csv_file F) :=
  (match cycles with
   | [] => []
   | _ => [write_csv timestamp "parent_child_cycles" ["ID"; "Cycle"] (cycle_rows cycles)]
   end) ++
  (match contradictions with
   | [] => []
   | _ => [write_csv timestamp "broader_than_conflicts" ["ID"; "Source"; "Target"; "Path"]
                     (contradiction_rows contradictions)]
   end) ++
  (if decide (repeated = ∅) then []
   else [write_csv timestamp "duplicate_edges" ["Source"; "Target"; "Occurrences"]
                   (duplicate_rows repeated)]) ++
  (if decide (reflexive_links = ∅) then []
   else [write_csv timestamp "self_links" ["CUI"; "Relation"]
                   (self_link_rows reflexive_links)]) ++
  [write_csv timestamp "run_statistics" ["Metric"; "Value"] (stat_rows stats)].

(** ** Vocabulary for the statements *)

(** The file of the report [name] among the files written, if there is
    one. *)
Definition report {F : Type} (files : list (csv_file F)) (timestamp name : string)
  : option (csv_file F) :=
  head (filter (λ f, file_name f = name +:+ "_" +:+ timestamp +:+ ".csv") files).

(** The number of data rows of the report [name], 0 when it is not
    written. *)
Definition row_count {F : Type} (files : list (csv_file F)) (timestamp name : string)
  : nat :=
  from_option (λ f, length (rows f)) 0 (report files timestamp name).

End Reports.

(* ===================================================================== *)
(** * [main]                                                              *)
(* ===================================================================== *)

Module Entry.
Import Py Graph Loader Cycles NX Broader Main Reports.

(** The values of [--check] that [argparse] lets through. *)
Inductive check_mode : Type := ParentChild | BroaderThan | Both.

(** What [time.time()] returns at each of its six call sites, and
    [round(later - earlier, 2)]; floats are kept abstract. *)
Class Clock : Type := {
  float : Type;
  elapsed : float → float → float;
  t_start : float;
  t_cycles_begin : float;
  t_cycles_end : float;
  t_broader_begin : float;
  t_broader_end : float;
  t_finish : float
}.

(** The dictionary [summary] right after parsing. *)
Definition initial_summary `{Clock} (st : load_state) : list (string * cell float) :=
  [("Total Child Links", Int (size (child_relations st)));
   ("Total Broader Links", Int (size (broader_relations st)));
   ("Unique Relationship Types", Int (size (rel_kinds st)));
   ("Reflexive Links Found", Int (size (reflexives st)));
   ("Duplicate Links",
    Int (length (filter (λ kv, 1 < kv.2) (map_to_list (repeats st)))))].

(** The parent-child block: the cycles and the entries added to [summary]. *)
Definition parent_child_check `{Clock} (check : check_mode) (st : load_state)
  : outcome (list (list string) * list (string * cell float)) :=
  match check with
  | ParentChild | Both =>
      bind (find_hierarchy_cycles (build_tree (child_relations st))) (λ r,
        let loops := r.1 in
        Ok (loops,
            [("Parent-Child Cycles Found", Int (length loops));
             ("Cycle Detection Time (s)", Float (elapsed t_cycles_begin t_cycles_end))]))
  | BroaderThan => Ok ([], [])
  end.

(** The broader-than block. *)
Definition broader_than_check `{Clock} `{NetworkX} (check : check_mode) (st : load_state)
  : outcome (list contradiction * list (string * cell float)) :=
  match check with
  | BroaderThan | Both =>
      bind (identify_broader_issues (build_bt_graph (broader_relations st))) (λ r,
        let contradictions := r.1 in
        Ok (contradictions,
            [("Broader-Than Violations Found", Int (length contradictions));
             ("Broader Analysis Time (s)", Float (elapsed t_broader_begin t_broader_end))]))
  | ParentChild => Ok ([], [])
  end.

(** The function, with the command line already parsed into [input] and
    [check]: it ends with an exception or with the files written. The
    messages sent to the log are left out. *)
Definition main `{Clock} `{NetworkX} (fs : filesystem) (input : string)
    (check : check_mode) (timestamp : string) : outcome (list (csv_file float)) :=
  match load_relationships fs input with
  | Raised e _ => Raise e
  | Returned st =>
      bind (parent_child_check check st) (λ pc,
      bind (broader_than_check check st) (λ bt,
        let summary :=
          initial_summary st ++ pc.2 ++ bt.2 ++
          [("Total Run Time (s)", Float (elapsed t_start t_finish))] in
        Ok (write_reports pc.1 bt.1 (repeats st) (reflexives st) summary timestamp)))
  end.

End Entry.

(* ===================================================================== *)
(** * Part II: lemmas and theorems                                        *)
(* ===================================================================== *)

Set Warnings "-clear-no-such-hyp".

(* ===================================================================== *)
(** * Facts about dictionaries                                            *)
(* ===================================================================== *)

Section dict_facts.
Import Py Graph.
Context {V : Type}.
Implicit Types (d : dict V) (k : string) (v : V).

Lemma dict_get_None d k : dict_get d k = None ↔ k ∉ keys d.
Proof.
  unfold keys. induction d as [|[k' v'] d IH]; cbn.
  - split; [intros _; apply not_elem_of_nil | done].
  - rewrite not_elem_of_cons. case_decide as Hk.
    + split; [done | intros [? _]; congruence].
    + rewrite IH. split; [intros ?; split; [congruence | done] | by intros [_ ?]].
Qed.

Lemma dict_get_Some_key d k v : dict_get d k = Some v → k ∈ keys d.
Proof.
  intros H. destruct (decide (k ∈ keys d)) as [|Hn]; [done|].
  apply dict_get_None in Hn. congruence.
Qed.

Lemma dict_get_is_Some d k : is_Some (dict_get d k) ↔ k ∈ keys d.
Proof.
  split; [intros [v Hv]; by eapply dict_get_Some_key|].
  intros Hin. destruct (dict_get d k) eqn:E; [eauto|].
  by apply dict_get_None in E.
Qed.

Lemma dict_get_Some_elem d k v : dict_get d k = Some v → (k, v) ∈ d.
Proof.
  induction d as [|[k' v'] d IH]; cbn; [done|].
  case_decide; intros; simplify_eq; [left | right; auto].
Qed.

Lemma dict_get_app d1 d2 k :
  dict_get (d1 ++ d2) k =
    match dict_get d1 k with Some v => Some v | None => dict_get d2 k end.
Proof.
  induction d1 as [|[k' v'] d1 IH]; cbn; [done|]. by case_decide.
Qed.

Lemma dict_get_set_eq d k v : dict_get (dict_set d k v) k = Some v.
Proof.
  induction d as [|[k' v'] d IH]; cbn.
  - by rewrite decide_True.
  - case_decide; cbn; [by rewrite decide_True | by rewrite decide_False].
Qed.

Lemma dict_get_set_ne d k k' v :
  k ≠ k' → dict_get (dict_set d k v) k' = dict_get d k'.
Proof.
  intros Hne. induction d as [|[k0 v0] d IH]; cbn.
  - by rewrite decide_False.
  - case_decide; cbn; subst.
    + by rewrite !decide_False.
    + by rewrite IH.
Qed.

Lemma keys_set_present d k v : k ∈ keys d → keys (dict_set d k v) = keys d.
Proof.
  unfold keys. induction d as [|[k0 v0] d IH]; cbn.
  - by intros ?%elem_of_nil.
  - intros Hin. case_decide; cbn; [by subst|].
    f_equal. apply IH. by apply elem_of_cons in Hin as [?|?].
Qed.

Lemma keys_app d1 d2 : keys (d1 ++ d2) = keys d1 ++ keys d2.
Proof. unfold keys. apply fmap_app. Qed.

End dict_facts.

Section successors_facts.
Import Py Graph.
Implicit Types (d : dict (list string)) (u v k : string).

Lemma edge_of_successors d u v : edge_of d u v ↔ v ∈ successors d u.
Proof.
  unfold edge_of, successors. destruct (dict_get d u) as [l|]; cbn.
  - split; [by intros (? & [= <-] & ?) | eauto].
  - split; [by intros (? & [=] & _) | by intros ?%elem_of_nil].
Qed.

Lemma successors_snoc_empty d k u :
  successors (d ++ [(k, [])]) u = successors d u.
Proof.
  unfold successors. rewrite dict_get_app.
  destruct (dict_get d u); [done|]. cbn. by case_decide.
Qed.

Lemma successors_set_eq d k l : successors (dict_set d k l) k = l.
Proof. unfold successors. by rewrite dict_get_set_eq. Qed.

Lemma successors_set_ne d k u l :
  k ≠ u → successors (dict_set d k l) u = successors d u.
Proof. intros. unfold successors. by rewrite dict_get_set_ne. Qed.

Lemma successors_getitem d k :
  (defaultdict_getitem d k).1 = successors d k ∧
  ∀ u, successors (defaultdict_getitem d k).2 u = successors d u.
Proof.
  unfold defaultdict_getitem, successors at 1.
  destruct (dict_get d k); cbn; split; try done.
  intros u. apply successors_snoc_empty.
Qed.

Lemma edge_of_key d u v : edge_of d u v → u ∈ keys d.
Proof. intros (l & Hl & _). by eapply dict_get_Some_key. Qed.

Lemma filter_eq_absent (l : list string) (x : string) :
  x ∉ l → filter (λ y, y = x) l = [].
Proof.
  induction l as [|y l IH]; [done|]. intros [Hne Hnin]%not_elem_of_cons.
  rewrite filter_cons_False by congruence. auto.
Qed.

(** A list without repetition holds each of its elements exactly once. *)
Lemma NoDup_occurs_once (l : list string) (x : string) :
  NoDup l → x ∈ l → length (filter (λ y, y = x) l) = 1.
Proof.
  induction 1 as [|y l Hy Hnd IH]; [by intros ?%elem_of_nil|].
  intros Hin. rewrite filter_cons. case_decide as Hyx.
  - subst y. cbn. by rewrite filter_eq_absent.
  - apply elem_of_cons in Hin as [->|Hin]; [done | auto].
Qed.

End successors_facts.

(* ===================================================================== *)
(** * Facts about the graph constructions of [main]                       *)
(* ===================================================================== *)

Section construction_facts.
Import Py Graph NX Main.
Implicit Types (G : DiGraph) (tree : dict (list string)) (u v : string).

Lemma successors_tree_append tree (e : string * string) u :
  successors (tree_append tree e) u =
    if decide (e.1 = u) then successors tree u ++ [e.2] else successors tree u.
Proof.
  unfold tree_append. destruct (successors_getitem tree e.1) as [H1 H2].
  destruct (defaultdict_getitem tree e.1) as [children tree']. cbn [fst snd] in H1, H2.
  case_decide as Hu.
  - subst u. by rewrite successors_set_eq, H1.
  - by rewrite successors_set_ne, H2.
Qed.

Lemma successors_fold_tree_append (l : list (string * string)) tree u :
  successors (fold_left tree_append l tree) u =
    successors tree u ++ (filter (λ e, e.1 = u) l).*2.
Proof.
  revert tree. induction l as [|e l IH]; intros tree.
  - cbn. by rewrite app_nil_r.
  - change (fold_left tree_append (e :: l) tree)
      with (fold_left tree_append l (tree_append tree e)).
    rewrite IH, successors_tree_append, filter_cons.
    case_decide; [by rewrite <- app_assoc | done].
Qed.

(** In the dictionary built from a set of links, a child is listed exactly
    once under its parent. *)
Lemma build_tree_once (child_links : gset (string * string)) u v :
  (u, v) ∈ child_links →
  length (filter (λ y, y = v) (successors (build_tree child_links) u)) = 1.
Proof.
  intros Hin. unfold build_tree. rewrite successors_fold_tree_append.
  change (successors [] u) with (@nil string). cbn [app].
  apply NoDup_occurs_once.
  - apply NoDup_fmap_2_strong; [|apply NoDup_filter, NoDup_elements].
    intros [a b] [a' b'] [Ha _]%list_elem_of_filter [Ha' _]%list_elem_of_filter Hb.
    cbn in *. congruence.
  - apply list_elem_of_fmap. exists (u, v). split; [done|].
    apply list_elem_of_filter. split; [done | by apply elem_of_elements].
Qed.

Lemma successors_add_node n G u : successors (add_node n G) u = successors G u.
Proof.
  unfold add_node. destruct (dict_get G n); [done|]. apply successors_snoc_empty.
Qed.

Lemma nodes_add_node n G :
  nodes (add_node n G) = if decide (n ∈ nodes G) then nodes G else nodes G ++ [n].
Proof.
  unfold add_node, nodes. destruct (dict_get G n) eqn:E.
  - rewrite decide_True; [done | by eapply dict_get_Some_key].
  - rewrite decide_False; [by rewrite keys_app | by apply dict_get_None].
Qed.

Lemma elem_of_nodes_add_node n G x :
  x ∈ nodes (add_node n G) ↔ x = n ∨ x ∈ nodes G.
Proof.
  rewrite nodes_add_node. case_decide.
  - split; [by right | by intros [->|?]].
  - rewrite elem_of_app, list_elem_of_singleton. tauto.
Qed.

Lemma NoDup_nodes_add_node n G : NoDup (nodes G) → NoDup (nodes (add_node n G)).
Proof.
  intros Hnd. rewrite nodes_add_node. case_decide; [done|].
  apply NoDup_app. split_and!; [done | | apply NoDup_singleton].
  intros x Hx ->%list_elem_of_singleton. done.
Qed.

Lemma successors_add_edge u v G x :
  successors (add_edge u v G) x =
    if decide (u = x) then
      if decide (v ∈ successors G u) then successors G u else successors G u ++ [v]
    else successors G x.
Proof.
  unfold add_edge. rewrite !successors_add_node.
  destruct (decide (v ∈ successors G u)) as [Hv|Hv].
  - rewrite !successors_add_node. by case_decide; subst.
  - case_decide as Hx.
    + subst x. by rewrite successors_set_eq.
    + by rewrite successors_set_ne, !successors_add_node.
Qed.

Lemma elem_of_successors_add_edge u v G x y :
  y ∈ successors (add_edge u v G) x ↔ y ∈ successors G x ∨ (x = u ∧ y = v).
Proof.
  rewrite successors_add_edge. repeat case_decide; subst;
    rewrite ?elem_of_app, ?list_elem_of_singleton; naive_solver.
Qed.

Lemma nodes_add_edge u v G :
  nodes (add_edge u v G) = nodes (add_node v (add_node u G)).
Proof.
  unfold add_edge. case_decide; [done|]. unfold nodes. apply keys_set_present.
  apply elem_of_nodes_add_node. right. apply elem_of_nodes_add_node. by left.
Qed.

Lemma elem_of_nodes_add_edge u v G x :
  x ∈ nodes (add_edge u v G) ↔ x = u ∨ x = v ∨ x ∈ nodes G.
Proof. rewrite nodes_add_edge, !elem_of_nodes_add_node. tauto. Qed.

(** Well-formedness in terms of look-ups. *)
Lemma wf_graph_alt G :
  wf_graph G ↔
  NoDup (nodes G) ∧
  ∀ u, NoDup (successors G u) ∧ ∀ v, v ∈ successors G u → v ∈ nodes G.
Proof.
  unfold wf_graph. split; intros [Hnd H]; (split; [done|]).
  - intros u. unfold successors. destruct (dict_get G u) as [l|] eqn:E; cbn.
    + apply dict_get_Some_elem in E. rewrite Forall_forall in H.
      destruct (H _ E) as [? Hall]. split; [done|].
      by apply Forall_forall.
    + split; [constructor | by intros ? ?%elem_of_nil].
  - apply Forall_forall. intros [k l] Hkl.
    assert (dict_get G k = Some l) as E.
    { clear H. unfold nodes, keys in Hnd.
      induction G as [|[k' l'] G IH]; [by apply elem_of_nil in Hkl|].
      cbn in *. apply NoDup_cons in Hnd as [Hk' Hnd].
      apply elem_of_cons in Hkl as [[= -> ->]|Hkl]; [by rewrite decide_True|].
      rewrite decide_False; [auto|]. intros ->. apply Hk'.
      apply list_elem_of_fmap. by exists (k, l). }
    destruct (H k) as [H1 H2]. unfold successors in H1, H2. rewrite E in H1, H2.
    split; [done | by apply Forall_forall].
Qed.

Lemma wf_graph_empty : wf_graph [].
Proof. split; constructor. Qed.

Lemma wf_graph_add_edge u v G : wf_graph G → wf_graph (add_edge u v G).
Proof.
  rewrite !wf_graph_alt. intros [Hnd H]. split.
  - rewrite nodes_add_edge. by apply NoDup_nodes_add_node, NoDup_nodes_add_node.
  - intros x. split.
    + rewrite successors_add_edge. destruct (H x) as [Hx _], (H u) as [Hu _].
      repeat case_decide; try done.
      apply NoDup_app. split_and!; [done | | apply NoDup_singleton].
      by intros y Hy ->%list_elem_of_singleton.
    + intros y [Hy|[-> ->]]%elem_of_successors_add_edge;
        apply elem_of_nodes_add_edge; [|tauto].
      right; right. by apply (H x).
Qed.

Lemma wf_graph_add_edges_from (ebunch : list (string * string)) G :
  wf_graph G → wf_graph (add_edges_from ebunch G).
Proof.
  revert G. induction ebunch as [|e l IH]; intros G HG; [done|].
  cbn. apply IH. by apply wf_graph_add_edge.
Qed.

Lemma elem_of_successors_add_edges_from (ebunch : list (string * string)) G x y :
  y ∈ successors (add_edges_from ebunch G) x ↔
  y ∈ successors G x ∨ (x, y) ∈ ebunch.
Proof.
  revert G. induction ebunch as [|[u v] l IH]; intros G.
  - cbn. rewrite elem_of_nil. tauto.
  - change (add_edges_from ((u, v) :: l) G) with (add_edges_from l (add_edge u v G)).
    rewrite IH, elem_of_successors_add_edge, elem_of_cons. naive_solver.
Qed.

Lemma elem_of_nodes_add_edges_from (ebunch : list (string * string)) G x :
  x ∈ nodes (add_edges_from ebunch G) ↔
  x ∈ nodes G ∨ ∃ e, e ∈ ebunch ∧ (x = e.1 ∨ x = e.2).
Proof.
  revert G. induction ebunch as [|[u v] l IH]; intros G.
  - cbn. split; [by left|]. intros [?|(e & ?%elem_of_nil & _)]; done.
  - change (add_edges_from ((u, v) :: l) G) with (add_edges_from l (add_edge u v G)).
    rewrite IH, elem_of_nodes_add_edge. split.
    + intros [[->|[->|?]]|(e & He & Hx)]; eauto.
      * right. exists (u, v). split; [left | by left].
      * right. exists (u, v). split; [left | by right].
      * right. exists e. split; [by right | done].
    + intros [?|(e & [->|He]%elem_of_cons & Hx)]; [tauto| |eauto].
      cbn in Hx. tauto.
Qed.

(** The graph that [main] builds from the broader-than links. *)
Lemma wf_build_bt_graph (broader_links : gset (string * string)) :
  wf_graph (build_bt_graph broader_links).
Proof. apply wf_graph_add_edges_from, wf_graph_empty. Qed.

Lemma edge_of_build_bt_graph (broader_links : gset (string * string)) u v :
  edge_of (build_bt_graph broader_links) u v ↔ (u, v) ∈ broader_links.
Proof.
  rewrite edge_of_successors. unfold build_bt_graph.
  rewrite elem_of_successors_add_edges_from, elem_of_elements.
  change (successors [] u) with (@nil string). rewrite elem_of_nil. tauto.
Qed.

Lemma build_bt_graph_once (broader_links : gset (string * string)) u v :
  (u, v) ∈ broader_links →
  length (filter (λ y, y = v) (successors (build_bt_graph broader_links) u)) = 1.
Proof.
  intros Hin. apply NoDup_occurs_once.
  - pose proof (wf_build_bt_graph broader_links) as Hwf.
    apply wf_graph_alt in Hwf as [_ H]. apply H.
  - by apply edge_of_successors, edge_of_build_bt_graph.
Qed.

End construction_facts.

(* ===================================================================== *)
(** * Facts about [load_relationships]                                    *)
(* ===================================================================== *)

Section loader_facts.
Import Py Graph Loader.

Lemma classify_short fields st :
  length fields < 5 → classify fields st = st.
Proof.
  intros Hlen. unfold classify.
  destruct (Nat.ltb_spec (length fields) 5) as [_|Hge]; [done | lia].
Qed.

(** The loop body on a record with at least five fields, case by case. *)
Lemma classify_long fields st :
  5 ≤ length fields →
  let src := nth 0 fields EmptyString in
  let rel := nth 3 fields EmptyString in
  let tgt := nth 4 fields EmptyString in
  let kinds := {[rel]} ∪ rel_kinds st in
  classify fields st =
    if decide (src = tgt) then
      LoadState (child_relations st) (broader_relations st) (repeats st)
                ({[(src, rel)]} ∪ reflexives st) kinds
    else if decide (rel = "CHD") then
      LoadState ({[(tgt, src)]} ∪ child_relations st) (broader_relations st)
                (incr (repeats st) (tgt, src)) (reflexives st) kinds
    else if decide (rel = "PAR") then
      LoadState ({[(src, tgt)]} ∪ child_relations st) (broader_relations st)
                (incr (repeats st) (src, tgt)) (reflexives st) kinds
    else if decide (rel = "RB") then
      LoadState (child_relations st) ({[(src, tgt)]} ∪ broader_relations st)
                (incr (repeats st) (src, tgt)) (reflexives st) kinds
    else if decide (rel = "RN") then
      LoadState (child_relations st) ({[(tgt, src)]} ∪ broader_relations st)
                (incr (repeats st) (tgt, src)) (reflexives st) kinds
    else
      LoadState (child_relations st) (broader_relations st) (repeats st)
                (reflexives st) kinds.
Proof.
  intros Hlen. unfold classify.
  destruct (Nat.ltb_spec (length fields) 5) as [Hlt|_]; [lia | done].
Qed.

Lemma count_incr_eq c e : count (incr c e) e = count c e + 1.
Proof. unfold count, incr. by rewrite lookup_insert_eq. Qed.

Lemma count_incr_ne c e e' : e ≠ e' → count (incr c e) e' = count c e'.
Proof. intros Hne. unfold count, incr. by rewrite lookup_insert_ne. Qed.

Lemma load_lines_app l1 l2 st :
  load_lines (l1 ++ l2) st = load_lines l2 (load_lines l1 st).
Proof. unfold load_lines. apply fold_left_app. Qed.

End loader_facts.

Section loader_claims.
Import Py Graph Loader.

Lemma relates_cons line lines rel src tgt :
  relates (line :: lines) rel src tgt ↔
  (5 ≤ length (record_of line) ∧
   nth 0 (record_of line) EmptyString = src ∧
   nth 3 (record_of line) EmptyString = rel ∧
   nth 4 (record_of line) EmptyString = tgt) ∨ relates lines rel src tgt.
Proof.
  unfold relates. split.
  - intros (l & [->|Hin]%elem_of_cons & H); [by left | right; eauto].
  - intros [H|(l & Hin & H)].
    + exists line. split; [left | done].
    + exists l. split; [by right | done].
Qed.

(** Where the edges of the hierarchy set come from. *)
Lemma load_lines_child lines st a b :
  (a, b) ∈ child_relations (load_lines lines st) ↔
  (a, b) ∈ child_relations st ∨
  (a ≠ b ∧ (relates lines "PAR" a b ∨ relates lines "CHD" b a)).
Proof.
  revert st. induction lines as [|line lines IH]; intros st.
  - cbn. split; [by left|]. intros [?|(_ & [(l&Hl&_)|(l&Hl&_)])]; [done|..];
      by apply elem_of_nil in Hl.
  - change (load_lines (line :: lines) st)
      with (load_lines lines (classify (record_of line) st)).
    rewrite IH, !relates_cons. clear IH.
    destruct (decide (length (record_of line) < 5)) as [Hs|Hl].
    { rewrite (classify_short _ _ Hs). split; [tauto|].
      intros [?|(? & [[?|?]|[?|?]])]; try tauto; lia. }
    rewrite (classify_long _ st) by lia. cbv zeta.
    set (src := nth 0 _ _). set (rel := nth 3 _ _). set (tgt := nth 4 _ _).
    assert (5 ≤ length (record_of line)) as Hlen by lia.
    repeat case_decide; cbn [child_relations];
      rewrite ?elem_of_union, ?elem_of_singleton.
    all: split; [intros [[?|?]|?] || intros [?|?] | intros [?|(? & [[?|?]|[?|?]])]].
    all: destruct_and?; simplify_eq; try tauto.
    all: try (left; left; congruence).
    all: try (right; split; [congruence|]; tauto).
    all: try congruence.
Qed.

(** Where the edges of the broader-than set come from. *)
Lemma load_lines_broader lines st a b :
  (a, b) ∈ broader_relations (load_lines lines st) ↔
  (a, b) ∈ broader_relations st ∨
  (a ≠ b ∧ (relates lines "RB" a b ∨ relates lines "RN" b a)).
Proof.
  revert st. induction lines as [|line lines IH]; intros st.
  - cbn. split; [by left|]. intros [?|(_ & [(l&Hl&_)|(l&Hl&_)])]; [done|..];
      by apply elem_of_nil in Hl.
  - change (load_lines (line :: lines) st)
      with (load_lines lines (classify (record_of line) st)).
    rewrite IH, !relates_cons. clear IH.
    destruct (decide (length (record_of line) < 5)) as [Hs|Hl].
    { rewrite (classify_short _ _ Hs). split; [tauto|].
      intros [?|(? & [[?|?]|[?|?]])]; try tauto; lia. }
    rewrite (classify_long _ st) by lia. cbv zeta.
    set (src := nth 0 _ _). set (rel := nth 3 _ _). set (tgt := nth 4 _ _).
    assert (5 ≤ length (record_of line)) as Hlen by lia.
    repeat case_decide; cbn [broader_relations];
      rewrite ?elem_of_union, ?elem_of_singleton.
    all: split; [intros [[?|?]|?] || intros [?|?] | intros [?|(? & [[?|?]|[?|?]])]].
    all: destruct_and?; simplify_eq; try tauto.
    all: try (left; left; congruence).
    all: try (right; split; [congruence|]; tauto).
    all: try congruence.
Qed.

(** C4: the four-way inversion rule. For a record with at least five fields
    and distinct source and target, [CHD] adds the hierarchy edge
    (target, source), [PAR] the hierarchy edge (source, target), [RB] the
    broader-than edge (source, target), [RN] the broader-than edge
    (target, source), each leaving the other graph alone; any other code
    leaves both edge sets and the multiplicity map as they were. *)
Theorem classify_inversion_rule (fields : list string) (st : load_state) :
  5 ≤ length fields →
  nth 0 fields EmptyString ≠ nth 4 fields EmptyString →
  let src := nth 0 fields EmptyString in
  let rel := nth 3 fields EmptyString in
  let tgt := nth 4 fields EmptyString in
  let st' := classify fields st in
  (rel = "CHD" →
     child_relations st' = {[(tgt, src)]} ∪ child_relations st ∧
     broader_relations st' = broader_relations st) ∧
  (rel = "PAR" →
     child_relations st' = {[(src, tgt)]} ∪ child_relations st ∧
     broader_relations st' = broader_relations st) ∧
  (rel = "RB" →
     broader_relations st' = {[(src, tgt)]} ∪ broader_relations st ∧
     child_relations st' = child_relations st) ∧
  (rel = "RN" →
     broader_relations st' = {[(tgt, src)]} ∪ broader_relations st ∧
     child_relations st' = child_relations st) ∧
  (rel ≠ "CHD" → rel ≠ "PAR" → rel ≠ "RB" → rel ≠ "RN" →
     child_relations st' = child_relations st ∧
     broader_relations st' = broader_relations st ∧
     repeats st' = repeats st).
Proof.
  intros Hlen Hne. cbv zeta. rewrite (classify_long _ st Hlen). cbv zeta.
  rewrite decide_False by done.
  split_and!; intros;
    repeat first [ rewrite decide_True by assumption
                 | rewrite decide_False by (assumption || (intros ?; congruence)) ];
    split_and!; reflexivity.
Qed.

Lemma classify_inversion_rule_witness :
  let fields := ["C1"; "A1"; "AUI"; "CHD"; "C2"] in
  child_relations (classify fields empty_state) =
    {[(nth 4 fields EmptyString, nth 0 fields EmptyString)]} ∪ child_relations empty_state.
Proof.
  intros fields.
  destruct (classify_inversion_rule fields empty_state) as [Hchd _];
    [simpl; lia | simpl; congruence |].
  exact (proj1 (Hchd eq_refl)).
Defined.

(** C6: a record whose source equals its target adds no edge to either graph
    and adds the reflexive link (source, code), whatever the code; so after
    the whole file is read no edge of either graph is a self-loop. *)
Theorem reflexive_records_diverted (fields lines : list string) (st : load_state) :
  5 ≤ length fields →
  nth 0 fields EmptyString = nth 4 fields EmptyString →
  let st' := classify fields st in
  child_relations st' = child_relations st ∧
  broader_relations st' = broader_relations st ∧
  repeats st' = repeats st ∧
  reflexives st' =
    {[(nth 0 fields EmptyString, nth 3 fields EmptyString)]} ∪ reflexives st ∧
  ∀ a b, (a, b) ∈ child_relations (load_lines lines empty_state) ∪
                  broader_relations (load_lines lines empty_state) → a ≠ b.
Proof.
  intros Hlen Heq. cbv zeta. rewrite (classify_long _ st Hlen). cbv zeta.
  rewrite decide_True by done. split_and!; try reflexivity.
  intros a b [H|H]%elem_of_union.
  - apply load_lines_child in H as [H|[? _]]; [by apply elem_of_empty in H | done].
  - apply load_lines_broader in H as [H|[? _]]; [by apply elem_of_empty in H | done].
Qed.

Lemma reflexive_records_diverted_witness :
  let fields := ["C1"; "A1"; "AUI"; "CHD"; "C1"] in
  reflexives (classify fields empty_state) =
    {[(nth 0 fields EmptyString, nth 3 fields EmptyString)]} ∪ reflexives empty_state.
Proof.
  intros fields.
  destruct (reflexive_records_diverted fields [] empty_state) as (_ & _ & _ & Hrefl & _);
    [simpl; lia | reflexivity |].
  exact Hrefl.
Defined.

(** C7, counterexample: one [PAR] record and one [RB] record for the same
    ordered pair put the edge (A, B) into both graphs. *)
Lemma edge_in_both_graphs :
  ∃ st, load_relationships (λ _, TextFile ["A|x|y|PAR|B|"; "A|x|y|RB|B|"]) "MRREL.RRF"
        = Returned st ∧
        ("A", "B") ∈ child_relations st ∧ ("A", "B") ∈ broader_relations st.
Proof. eexists. split; [reflexivity|]. split; compute_done. Qed.

(** C7, amended: the hierarchy set holds exactly the normalised edges of the
    [PAR] and [CHD] records and the broader-than set exactly those of the [RB]
    and [RN] records (records with at least five fields and distinct ends);
    one record changes at most one of the two sets. A directed pair is
    therefore in both sets exactly when the input relates it by codes of both
    families. *)
Theorem graphs_fed_by_code_family (lines fields : list string) (st : load_state) :
  let final := load_lines lines empty_state in
  (∀ a b, (a, b) ∈ child_relations final ↔
          a ≠ b ∧ (relates lines "PAR" a b ∨ relates lines "CHD" b a)) ∧
  (∀ a b, (a, b) ∈ broader_relations final ↔
          a ≠ b ∧ (relates lines "RB" a b ∨ relates lines "RN" b a)) ∧
  (child_relations (classify fields st) = child_relations st ∨
   broader_relations (classify fields st) = broader_relations st).
Proof.
  cbv zeta. split_and!.
  - intros a b. rewrite load_lines_child. cbn. rewrite elem_of_empty. tauto.
  - intros a b. rewrite load_lines_broader. cbn. rewrite elem_of_empty. tauto.
  - destruct (decide (length fields < 5)) as [Hs|Hl].
    { rewrite (classify_short _ _ Hs). by left. }
    rewrite (classify_long _ st) by lia. cbv zeta.
    repeat case_decide; (by left) || (by right).
Qed.

(** C8, counterexample: a record with four fields, the fourth being a
    relation code, leaves the observed-type set empty. *)
Lemma short_record_type_not_recorded :
  let fields := ["C1"; "A1"; "AUI"; "RB"] in
  nth 3 fields EmptyString = "RB" ∧ rel_kinds (classify fields empty_state) = ∅.
Proof. split; reflexivity. Qed.

(** C8, amended: every record with at least five fields has its relation
    code (field 3) added to the observed-type set, whether it yields an edge,
    a reflexive link or nothing; a record with fewer than five fields changes
    nothing, so its code is not recorded. *)
Theorem relation_type_recorded (fields : list string) (st : load_state) :
  (5 ≤ length fields →
     rel_kinds (classify fields st) = {[nth 3 fields EmptyString]} ∪ rel_kinds st) ∧
  (length fields < 5 → classify fields st = st).
Proof.
  split; [|apply classify_short].
  intros Hlen. rewrite (classify_long _ st Hlen). cbv zeta.
  repeat case_decide; reflexivity.
Qed.

(** C9, counterexample: a path that exists but cannot be opened makes the
    call fail although the path is not missing. *)
Lemma unreadable_path_fails :
  let fs := λ p : string, if String.eqb p "/data" then Unreadable else Missing in
  fs "/data" = Unreadable ∧
  load_relationships fs "/data" = Raised OSError empty_state.
Proof. split; reflexivity. Qed.

(** An existing file that opens but is not valid UTF-8 fails as well, in the
    pass that counts the lines. *)
Example undecodable_file_fails :
  let fs := λ p : string, if String.eqb p "/data" then Undecodable else Missing in
  load_relationships fs "/data" = Raised UnicodeDecodeError empty_state.
Proof. reflexivity. Qed.

(** C9, amended: the call fails exactly when the path is missing
    ([FileNotFoundError]), cannot be opened ([OSError]) or names a file that
    is not valid UTF-8 ([UnicodeDecodeError]); every failure happens with all
    five accumulators still empty; for a file that decodes the call returns
    the accumulators after the loop, whatever the lines are. *)
Theorem load_fails_only_on_path (fs : filesystem) (filepath : string) :
  ((∃ e st, load_relationships fs filepath = Raised e st) ↔
     fs filepath = Missing ∨ fs filepath = Unreadable ∨ fs filepath = Undecodable) ∧
  (∀ e st, load_relationships fs filepath = Raised e st → st = empty_state) ∧
  (fs filepath = Missing →
     load_relationships fs filepath = Raised FileNotFoundError empty_state) ∧
  (fs filepath = Unreadable →
     load_relationships fs filepath = Raised OSError empty_state) ∧
  (fs filepath = Undecodable →
     load_relationships fs filepath = Raised UnicodeDecodeError empty_state) ∧
  (∀ lines, fs filepath = TextFile lines →
     load_relationships fs filepath = Returned (load_lines lines empty_state)).
Proof.
  unfold load_relationships. destruct (fs filepath) as [| | |lines]; split_and!.
  all: try (intros; congruence).
  all: try (split; [intros (e & st & H) | intros [H|[H|H]]]; try discriminate; eauto).
Qed.

End loader_claims.

Section multiplicity.
Import Py Graph NX Loader Main.

Lemma classify_CHD fields st :
  5 ≤ length fields → nth 0 fields EmptyString ≠ nth 4 fields EmptyString →
  nth 3 fields EmptyString = "CHD" →
  let e := (nth 4 fields EmptyString, nth 0 fields EmptyString) in
  classify fields st =
    LoadState ({[e]} ∪ child_relations st) (broader_relations st)
              (incr (repeats st) e) (reflexives st) ({["CHD"]} ∪ rel_kinds st).
Proof.
  intros Hlen Hne Hrel. rewrite (classify_long _ st Hlen). cbv zeta.
  rewrite decide_False by done. rewrite Hrel. by rewrite decide_True.
Qed.

Lemma classify_PAR fields st :
  5 ≤ length fields → nth 0 fields EmptyString ≠ nth 4 fields EmptyString →
  nth 3 fields EmptyString = "PAR" →
  let e := (nth 0 fields EmptyString, nth 4 fields EmptyString) in
  classify fields st =
    LoadState ({[e]} ∪ child_relations st) (broader_relations st)
              (incr (repeats st) e) (reflexives st) ({["PAR"]} ∪ rel_kinds st).
Proof.
  intros Hlen Hne Hrel. rewrite (classify_long _ st Hlen). cbv zeta.
  rewrite decide_False by done. rewrite Hrel.
  rewrite decide_False by (intros [=]). by rewrite decide_True.
Qed.

Lemma classify_RB fields st :
  5 ≤ length fields → nth 0 fields EmptyString ≠ nth 4 fields EmptyString →
  nth 3 fields EmptyString = "RB" →
  let e := (nth 0 fields EmptyString, nth 4 fields EmptyString) in
  classify fields st =
    LoadState (child_relations st) ({[e]} ∪ broader_relations st)
              (incr (repeats st) e) (reflexives st) ({["RB"]} ∪ rel_kinds st).
Proof.
  intros Hlen Hne Hrel. rewrite (classify_long _ st Hlen). cbv zeta.
  rewrite decide_False by done. rewrite Hrel.
  do 2 rewrite decide_False by (intros [=]). by rewrite decide_True.
Qed.

Lemma classify_RN fields st :
  5 ≤ length fields → nth 0 fields EmptyString ≠ nth 4 fields EmptyString →
  nth 3 fields EmptyString = "RN" →
  let e := (nth 4 fields EmptyString, nth 0 fields EmptyString) in
  classify fields st =
    LoadState (child_relations st) ({[e]} ∪ broader_relations st)
              (incr (repeats st) e) (reflexives st) ({["RN"]} ∪ rel_kinds st).
Proof.
  intros Hlen Hne Hrel. rewrite (classify_long _ st Hlen). cbv zeta.
  rewrite decide_False by done. rewrite Hrel.
  do 3 rewrite decide_False by (intros [=]). by rewrite decide_True.
Qed.

(** C5: the multiplicity map is keyed by the normalised edge. A [CHD] record
    a→b and a [PAR] record b→a both increment the entry (b, a); a record with
    one of the four codes fed twice raises the entry of its normalised edge by
    exactly 2, while the adjacency structure that [main] builds for the owning
    graph lists the edge's head exactly once under its tail. *)
Theorem multiplicity_keyed_by_normalised_edge
    (a b x1 x2 y1 y2 : string) (fields : list string) (st : load_state) :
  a ≠ b →
  5 ≤ length fields →
  nth 0 fields EmptyString ≠ nth 4 fields EmptyString →
  let src := nth 0 fields EmptyString in
  let rel := nth 3 fields EmptyString in
  let tgt := nth 4 fields EmptyString in
  let e := if decide (rel = "CHD" ∨ rel = "RN") then (tgt, src) else (src, tgt) in
  let st2 := classify fields (classify fields st) in
  repeats (classify [a; x1; x2; "CHD"; b] st) = incr (repeats st) (b, a) ∧
  repeats (classify [b; y1; y2; "PAR"; a] st) = incr (repeats st) (b, a) ∧
  (rel = "CHD" ∨ rel = "PAR" →
     count (repeats st2) e = count (repeats st) e + 2 ∧
     length (filter (λ y, y = e.2)
                    (successors (build_tree (child_relations st2)) e.1)) = 1) ∧
  (rel = "RB" ∨ rel = "RN" →
     count (repeats st2) e = count (repeats st) e + 2 ∧
     length (filter (λ y, y = e.2)
                    (successors (build_bt_graph (broader_relations st2)) e.1)) = 1).
Proof.
  intros Hab Hlen Hne. cbv zeta. split_and!.
  - rewrite classify_CHD; cbn; [done | lia | done | done].
  - rewrite classify_PAR; cbn; [done | lia | done | done].
  - intros [Hrel|Hrel].
    + rewrite !(classify_CHD fields) by done. cbv zeta. cbn [repeats child_relations].
      rewrite Hrel, decide_True by (by left).
      rewrite !count_incr_eq. split; [lia|].
      apply build_tree_once. set_solver.
    + rewrite !(classify_PAR fields) by done. cbv zeta. cbn [repeats child_relations].
      rewrite Hrel, decide_False by (intros [[=]|[=]]).
      rewrite !count_incr_eq. split; [lia|].
      apply build_tree_once. set_solver.
  - intros [Hrel|Hrel].
    + rewrite !(classify_RB fields) by done. cbv zeta. cbn [repeats broader_relations].
      rewrite Hrel, decide_False by (intros [[=]|[=]]).
      rewrite !count_incr_eq. split; [lia|].
      apply build_bt_graph_once. set_solver.
    + rewrite !(classify_RN fields) by done. cbv zeta. cbn [repeats broader_relations].
      rewrite Hrel, decide_True by (by right).
      rewrite !count_incr_eq. split; [lia|].
      apply build_bt_graph_once. set_solver.
Qed.

Lemma multiplicity_keyed_by_normalised_edge_witness :
  let fields := ["C1"; "A1"; "AUI"; "RB"; "C2"] in
  let st2 := classify fields (classify fields empty_state) in
  count (repeats st2) ("C1", "C2") = 0 + 2 ∧
  length (filter (λ y, y = "C2")
                 (successors (build_bt_graph (broader_relations st2)) "C1")) = 1.
Proof.
  intros fields st2.
  destruct (multiplicity_keyed_by_normalised_edge "C1" "C2" "A1" "AUI" "A2" "AUI"
              fields empty_state) as (_ & _ & _ & H).
  - intros [=].
  - simpl; lia.
  - intros [=].
  - exact (H (or_introl eq_refl)).
Defined.

End multiplicity.

(* ===================================================================== *)
(** * Facts about [sorted], [index] and chains                            *)
(* ===================================================================== *)

Section order_facts.
Import Py.








Lemma sorted_perm (l : list string) : sorted l ≡ₚ l.
Proof. apply merge_sort_Permutation. Qed.



Lemma index_elem_of (l : list string) (x : string) :
  x ∈ l → ∃ i rest, index l x = Some i ∧ drop i l = x :: rest.
Proof.
  induction l as [|y l IH]; [by intros ?%elem_of_nil|].
  intros Hin. cbn. case_decide as Hy.
  - subst y. by exists 0, l.
  - apply elem_of_cons in Hin as [->|Hin]; [done|].
    destruct (IH Hin) as (i & rest & -> & Hd). by exists (S i), rest.
Qed.

End order_facts.

Section chain_facts.
Import Py Graph.
Context (R : string → string → Prop).

Lemma chain_cons_inv x l : chain R (x :: l) → chain R l.
Proof. destruct l; [done|]. by intros [_ ?]. Qed.

Lemma chain_snoc l x :
  chain R l → (∀ u, last l = Some u → R u x) → chain R (l ++ [x]).
Proof.
  induction l as [|y l IH]; [done|]. intros Hc Hlast.
  destruct l as [|z l]; cbn.
  - split; [by apply Hlast | done].
  - destruct Hc as [Hyz Hc]. split; [done|]. apply IH; [done|].
    intros u Hu. apply Hlast. by rewrite last_cons_cons.
Qed.


Lemma chain_app_inv_r l1 l2 : chain R (l1 ++ l2) → chain R l2.
Proof.
  induction l1 as [|x l1 IH]; [done|]. intros Hc. apply IH.
  by eapply chain_cons_inv.
Qed.

Lemma chain_drop n l : chain R l → chain R (drop n l).
Proof. rewrite <- (take_drop n l) at 1. apply chain_app_inv_r. Qed.

(** Two chains that meet at a node compose. *)
Lemma chain_app l1 l2 x :
  chain R l1 → chain R (x :: l2) → last l1 = Some x → chain R (l1 ++ l2).
Proof.
  intros H1 H2. induction l1 as [|y l1 IH]; [done|]. intros Hlast.
  destruct l1 as [|z l1].
  - cbn in Hlast. by simplify_eq.
  - destruct H1 as [Hyz H1]. rewrite last_cons_cons in Hlast.
    split; [done|]. by apply IH.
Qed.

Lemma chain_rtc l a b :
  chain R l → head l = Some a → last l = Some b → rtc R a b.
Proof.
  revert a. induction l as [|x l IH]; [done|]. intros a Hc [= ->] Hlast.
  destruct l as [|y l].
  - cbn in Hlast. by simplify_eq.
  - destruct Hc as [Hxy Hc]. eapply rtc_l; [done|]. by apply IH.
Qed.

Lemma rtc_chain a b :
  rtc R a b → ∃ l, chain R l ∧ head l = Some a ∧ last l = Some b.
Proof.
  induction 1 as [a|a c b Hac _ (l & Hc & Hh & Hl)].
  - by exists [a].
  - exists (a :: l). destruct l as [|y l]; [done|]. cbn in Hh. simplify_eq.
    split_and!; [by split | done | done].
Qed.

End chain_facts.

(* ===================================================================== *)
(** * Facts about [find_hierarchy_cycles]                                 *)
(* ===================================================================== *)

Section covered_facts.
Import Py Graph.

Lemma tc_subrel (R1 R2 : string → string → Prop) u v :
  (∀ a b, R1 a b → R2 a b) → tc R1 u v → tc R2 u v.
Proof.
  intros Hsub. induction 1 as [? ? Hxy|? ? ? Hxy _ IH].
  - by apply tc_once, Hsub.
  - eapply tc_l; [by apply Hsub | done].
Qed.

Lemma covered_elem loops p v :
  covered loops p v ↔ ∃ loop, loop ∈ loops ∧ p ∈ loop ∧ v ∈ loop.
Proof. unfold covered. apply Exists_exists. Qed.

Lemma covered_app loops more p v :
  covered loops p v → covered (loops ++ more) p v.
Proof. unfold covered. rewrite Exists_app. by left. Qed.

Lemma uncovered_app d loops more p v :
  uncovered d (loops ++ more) p v → uncovered d loops p v.
Proof. intros [He Hn]. split; [done|]. intros Hc. by apply Hn, covered_app. Qed.

Lemma covered_nil p v : ¬ covered [] p v.
Proof. unfold covered. by intros ?%Exists_nil. Qed.

End covered_facts.

Section dfs_facts.
Import Py Graph Cycles.
Context (d0 : dict (list string)).
Implicit Types (σ : dfs_state) (current u v : string).

Lemma successors_with_empty_entries extra u :
  successors (with_empty_entries d0 extra) u = successors d0 u.
Proof.
  unfold with_empty_entries. induction extra as [|k extra IH] using rev_ind.
  - cbn. by rewrite app_nil_r.
  - rewrite fmap_app, app_assoc. cbn. by rewrite successors_snoc_empty.
Qed.

Lemma keys_with_empty_entries extra :
  keys (with_empty_entries d0 extra) = keys d0 ++ extra.
Proof.
  unfold with_empty_entries. rewrite keys_app. f_equal.
  unfold keys. induction extra as [|k extra IH]; [done|]. cbn. by f_equal.
Qed.

Lemma with_empty_entries_snoc extra k :
  with_empty_entries d0 extra ++ [(k, [])] = with_empty_entries d0 (extra ++ [k]).
Proof. unfold with_empty_entries. by rewrite fmap_app, app_assoc. Qed.

Lemma edge_of_universe u v : edge_of d0 u v → u ∈ universe d0 ∧ v ∈ universe d0.
Proof.
  intros (l & Hl & Hv). unfold universe, mentioned.
  rewrite !elem_of_list_to_set, !elem_of_app. split.
  - left. by eapply dict_get_Some_key.
  - right. apply list_elem_of_In, in_concat. exists l.
    rewrite <- !list_elem_of_In. split; [|done].
    apply list_elem_of_fmap. exists (u, l). split; [done|].
    by apply dict_get_Some_elem.
Qed.

Lemma reached_universe u :
  (u ∈ keys d0 ∨ ∃ w, edge_of d0 w u) → u ∈ universe d0.
Proof.
  intros [Hk|[w Hw]]; [|by apply (edge_of_universe w u)].
  unfold universe, mentioned. rewrite elem_of_list_to_set, elem_of_app. by left.
Qed.

Lemma inv_successors σ u :
  dfs_inv d0 σ → successors (adjacency_list σ) u = successors d0 u.
Proof.
  intros [(extra & -> & _) _ _ _ _ _ _ _ _ _ _ _ _ _].
  apply successors_with_empty_entries.
Qed.

(** The step into a node that is not on the stack. *)
Lemma enter_spec σ current :
  dfs_inv d0 σ → current ∈ universe d0 → current ∉ stack σ →
  (∀ u, last (trail σ) = Some u → edge_of d0 u current) →
  (current ∈ keys d0 ∨ ∃ w, edge_of d0 w current) →
  ∃ σ1, enter current σ = (successors d0 current, σ1) ∧
        dfs_inv d0 σ1 ∧
        visited σ1 = {[current]} ∪ visited σ ∧
        stack σ1 = {[current]} ∪ stack σ ∧
        trail σ1 = trail σ ++ [current] ∧
        found_cycles σ1 = found_cycles σ.
Proof.
  intros Hinv HU Hstack Hlast Hreach.
  pose proof (inv_successors σ current Hinv) as Hsucc.
  destruct Hinv as [(extra & Hadj & Hnd & Hextra) Hst Htr Hch Hsv HvU Hvk Hf Hseen Hsig Hfin Hcl Hre Hcov].
  unfold enter. destruct (successors_getitem (adjacency_list σ) current) as [H1 H2].
  assert (∃ extra', (defaultdict_getitem (adjacency_list σ) current).2
                    = with_empty_entries d0 extra' ∧ NoDup extra' ∧
                    (∀ k, k ∈ extra' → (k ∉ keys d0) ∧ (k ∈ {[current]} ∪ visited σ)) ∧
                    current ∈ keys (with_empty_entries d0 extra') ∧
                    ∀ k, k ∈ extra → k ∈ extra') as (extra' & H3 & Hnd' & Hextra' & Hcur & Hmono).
  { unfold defaultdict_getitem. destruct (dict_get (adjacency_list σ) current) eqn:E; cbn.
    - exists extra. split_and!; [done | done | | | done].
      + intros k Hk. destruct (Hextra k Hk). split; [done | set_solver].
      + rewrite <- Hadj. by eapply dict_get_Some_key.
    - apply dict_get_None in E. rewrite Hadj, keys_with_empty_entries in E.
      apply not_elem_of_app in E as [E1 E2].
      exists (extra ++ [current]). split_and!.
      + by rewrite Hadj, with_empty_entries_snoc.
      + apply NoDup_app. split_and!; [done | | apply NoDup_singleton].
        by intros k Hk ->%list_elem_of_singleton.
      + intros k [Hk| ->%list_elem_of_singleton]%elem_of_app.
        * destruct (Hextra k Hk). split; [done | set_solver].
        * split; [done | set_solver].
      + rewrite keys_with_empty_entries, !elem_of_app, list_elem_of_singleton. tauto.
      + intros k Hk. apply elem_of_app. by left. }
  destruct (defaultdict_getitem (adjacency_list σ) current) as [neighbors d].
  cbn [fst snd] in *. subst neighbors d. rewrite Hsucc.
  eexists. split; [reflexivity|]. split; [|done].
  constructor; cbn [visited stack found_cycles seen_signatures adjacency_list trail].
  - by exists extra'.
  - rewrite list_to_set_app_L, Hst. set_solver.
  - apply NoDup_app. split_and!; [done | | apply NoDup_singleton].
    intros x Hx ->%list_elem_of_singleton. apply Hstack. rewrite Hst.
    by apply elem_of_list_to_set.
  - by apply chain_snoc.
  - set_solver.
  - set_solver.
  - intros u [->%elem_of_singleton|Hu]%elem_of_union; [done|].
    apply Hvk in Hu. rewrite Hadj, keys_with_empty_entries in Hu.
    rewrite keys_with_empty_entries. apply elem_of_app in Hu as [?|?];
      apply elem_of_app; auto.
  - done.
  - done.
  - done.
  - intros Hnil u Hu Hus. apply Hfin; set_solver.
  - intros u v Hu Hus Huv. apply elem_of_union. right.
    apply (Hcl u v); [set_solver | set_solver | done].
  - intros u [->%elem_of_singleton|Hu]%elem_of_union; [done | by apply Hre].
  - intros u Hu Hus. apply Hcov; set_solver.
Qed.

(** The branch that records a loop. *)
Lemma record_loop_spec σ current :
  dfs_inv d0 σ → current ∈ stack σ →
  (∀ u, last (trail σ) = Some u → edge_of d0 u current) →
  ∃ σ', record_loop current σ = Ok σ' ∧ dfs_post d0 current σ σ'.
Proof.
  intros Hinv Hstack Hlast.
  destruct Hinv as [Hadj Hst Htr Hch Hsv HvU Hvk Hf Hseen Hsig Hfin Hcl Hre Hcov].
  assert (current ∈ trail σ) as Hin.
  { rewrite Hst in Hstack. by apply elem_of_list_to_set in Hstack. }
  destruct (index_elem_of _ _ Hin) as (idx & rest & Hidx & Hdrop).
  unfold record_loop. rewrite Hidx. cbv zeta.
  assert (is_cycle d0 (drop idx (trail σ))) as Hcyc.
  { split_and!.
    - rewrite <- (take_drop idx (trail σ)) in Htr. by apply NoDup_app in Htr as (_ & _ & ?).
    - by apply chain_drop.
    - destruct (last (trail σ)) as [b|] eqn:Hb.
      + exists current, b. split_and!; [by rewrite Hdrop | | by apply Hlast].
        rewrite <- (take_drop idx (trail σ)), last_app in Hb.
        destruct (last (drop idx (trail σ))) eqn:E; [done|].
        apply last_None in E. by rewrite Hdrop in E.
      + apply last_None in Hb. rewrite Hb in Hin. by apply elem_of_nil in Hin. }
  assert (∀ u, last (trail σ) = Some u →
               current ∈ drop idx (trail σ) ∧ u ∈ drop idx (trail σ)) as Hends.
  { intros u Hu. split; [rewrite Hdrop; left|].
    rewrite <- (take_drop idx (trail σ)), last_app in Hu.
    destruct (last (drop idx (trail σ))) as [b|] eqn:E.
    - injection Hu as <-. apply last_Some in E as [l' ->].
      apply elem_of_app. right. left.
    - apply last_None in E. by rewrite Hdrop in E. }
  case_decide as Hkey.
  - eexists. split; [reflexivity|].
    split_and!; [by constructor | done | done | done | | | | ].
    + set_solver.
    + exists []. by rewrite app_nil_r.
    + intros Hnil. rewrite Hseen, Hnil in Hkey. by apply elem_of_empty in Hkey.
    + intros u Hu _. destruct (Hends u Hu) as [Hc Hl].
      rewrite Hseen in Hkey.
      apply elem_of_list_to_set, list_elem_of_fmap in Hkey as (loop' & Hsorted & Hin').
      apply covered_elem. exists loop'. split; [exact Hin'|].
      assert (drop idx (trail σ) ≡ₚ loop') as Hp
        by (by rewrite <- (sorted_perm (drop idx (trail σ))), Hsorted, sorted_perm).
      by rewrite <- Hp.
  - eexists. split; [reflexivity|].
    split_and!; cbn [visited stack found_cycles seen_signatures adjacency_list trail];
      [ | done | done | done | | | | ].
    + constructor; cbn [visited stack found_cycles seen_signatures adjacency_list trail];
        try done.
      * apply Forall_app. split; [done | by constructor].
      * rewrite fmap_app, list_to_set_app_L, Hseen. cbn. set_solver.
      * rewrite fmap_app. apply NoDup_app. split_and!; [done | | apply NoDup_singleton].
        intros x Hx ->%list_elem_of_singleton. apply Hkey. rewrite Hseen.
        by apply elem_of_list_to_set.
      * intros Hnil. by apply app_eq_nil in Hnil as [_ [=]].
      * intros u Hu Hus Htc. apply (Hcov u Hu Hus).
        eapply tc_subrel; [|exact Htc]. intros a b. apply uncovered_app.
    + set_solver.
    + by eexists.
    + intros Hnil. by apply app_eq_nil in Hnil as [_ [=]].
    + intros u Hu _. destruct (Hends u Hu) as [Hc Hl].
      apply covered_elem. exists (drop idx (trail σ)).
      split; [|done]. apply elem_of_app. right. left.
Qed.

(** The step out of a node. *)
Lemma leave_spec σ σ2 current :
  dfs_inv d0 σ → dfs_inv d0 σ2 → current ∉ stack σ →
  stack σ2 = {[current]} ∪ stack σ →
  trail σ2 = trail σ ++ [current] →
  {[current]} ∪ visited σ ⊆ visited σ2 →
  (∃ more, found_cycles σ2 = found_cycles σ ++ more) →
  (∀ v, edge_of d0 current v → v ∈ visited σ2) →
  (found_cycles σ2 = [] → ∀ v, edge_of d0 current v → v ∉ stack σ2) →
  (∀ v, edge_of d0 current v → v ∈ stack σ2 →
        covered (found_cycles σ2) current v) →
  ∃ σ', leave current σ2 = Ok σ' ∧ dfs_post d0 current σ σ'.
Proof.
  intros Hinv Hinv2 Hcur Hstack Htrail Hvis Hmore Hsucc Hblack Hback.
  destruct Hinv as [_ Hst Htr Hch Hsv _ _ _ _ _ _ _ _ _].
  destruct Hinv2 as [Hadj2 Hst2 Htr2 Hch2 Hsv2 HvU2 Hvk2 Hf2 Hseen2 Hsig2 Hfin2 Hcl2 Hre2 Hcov2].
  unfold leave, pop. rewrite Htrail.
  destruct (trail σ ++ [current]) eqn:E; [by destruct (trail σ)|]. rewrite <- E.
  rewrite removelast_last, decide_True by set_solver.
  eexists. split; [reflexivity|].
  assert (stack σ2 ∖ {[current]} = stack σ) as Hs by set_solver.
  split_and!; cbn [visited stack found_cycles seen_signatures adjacency_list trail];
    [ | done | done | | | done | | ].
  - constructor; cbn [visited stack found_cycles seen_signatures adjacency_list trail];
      rewrite ?Hs; try done.
    + set_solver.
    + intros Hnil u Hu Hus. destruct (decide (u = current)) as [->|Hne].
      * intros Htc.
        assert (∃ v, edge_of d0 current v ∧ rtc (edge_of d0) v current)
          as (v & Hv & Hrtc).
        { inversion Htc as [? ? Hv|? v ? Hv Hvc]; subst.
          - by exists current.
          - exists v. split; [done | by apply tc_rtc]. }
        apply (Hfin2 Hnil v); [by apply Hsucc | by apply Hblack |].
        eapply tc_rtc_l; [done|]. by apply tc_once.
      * apply Hfin2; [done | done | set_solver].
    + intros u v Hu Hus Huv. destruct (decide (u = current)) as [->|Hne].
      * by apply Hsucc.
      * apply (Hcl2 u v); [done | set_solver | done].
    + intros u Hu Hus. destruct (decide (u = current)) as [->|Hne].
      * intros Htc.
        assert (∃ v, uncovered d0 (found_cycles σ2) current v ∧
                     rtc (uncovered d0 (found_cycles σ2)) v current)
          as (v & [Hv Hnc] & Hrtc).
        { inversion Htc as [? ? Hv|? v ? Hv Hvc]; subst.
          - by exists current.
          - exists v. split; [done | by apply tc_rtc]. }
        destruct (decide (v ∈ stack σ2)) as [Hvs|Hvs].
        { by apply Hnc, Hback. }
        apply (Hcov2 v); [by apply Hsucc | done |].
        eapply tc_rtc_l; [done|]. by apply tc_once.
      * apply Hcov2; [done | set_solver].
  - set_solver.
  - set_solver.
  - intros _. by rewrite Hs.
  - intros u _ Hin. by rewrite Hs in Hin.
Qed.

Lemma size_universe_step (S : gset string) current :
  current ∈ universe d0 → current ∉ S →
  size (universe d0 ∖ ({[current]} ∪ S)) < size (universe d0 ∖ S).
Proof.
  intros HU HS. apply subset_size. split; [set_solver|].
  intros Hsub. specialize (Hsub current). set_solver.
Qed.

(** The closure [dfs] returns, without exception, in a state that satisfies
    the invariant again, as soon as the budget exceeds the number of
    identifiers that are not on the stack. *)
Lemma dfs_spec fuel : ∀ current σ,
  dfs_inv d0 σ →
  (current ∈ keys d0 ∨ ∃ w, edge_of d0 w current) →
  (∀ u, last (trail σ) = Some u → edge_of d0 u current) →
  size (universe d0 ∖ stack σ) < fuel →
  ∃ σ', dfs fuel current σ = Ok σ' ∧ dfs_post d0 current σ σ'.
Proof.
  induction fuel as [|fuel IH]; intros current σ Hinv Hreach Hlast Hfuel; [lia|].
  pose proof (reached_universe current Hreach) as HU.
  cbn [dfs]. case_decide as Hstack; [by apply record_loop_spec|].
  case_decide as Hvis.
  { eexists. split; [reflexivity|].
    split_and!; [done | done | done | done | done | | done | done].
    exists []. by rewrite app_nil_r. }
  destruct (enter_spec σ current Hinv HU Hstack Hlast Hreach)
    as (σ1 & Hent & Hinv1 & Hv1 & Hs1 & Ht1 & Hf1).
  rewrite Hent.
  assert (∀ ns σa,
    dfs_inv d0 σa → stack σa = stack σ1 → trail σa = trail σ1 →
    (∀ v, v ∈ ns → edge_of d0 current v) →
    ∃ σb, for_each (dfs fuel) ns σa = Ok σb ∧
          dfs_inv d0 σb ∧ stack σb = stack σ1 ∧ trail σb = trail σ1 ∧
          visited σa ⊆ visited σb ∧
          (∀ v, v ∈ ns → v ∈ visited σb) ∧
          (∃ more, found_cycles σb = found_cycles σa ++ more) ∧
          (found_cycles σb = [] → ∀ v, v ∈ ns → v ∉ stack σb) ∧
          (∀ v, v ∈ ns → v ∈ stack σb → covered (found_cycles σb) current v))
    as Hloop.
  { induction ns as [|v ns IHns]; intros σa Hinva Hsa Hta Hns.
    - exists σa. split; [reflexivity|].
      split_and!; [done | done | done | done | | | | ].
      + by intros v ?%elem_of_nil.
      + exists []. by rewrite app_nil_r.
      + by intros _ v ?%elem_of_nil.
      + by intros v ?%elem_of_nil.
    - destruct (IH v σa)
        as (σm & Hd & Hinvm & Hsm & Htm & Hvm & Hvin & [m1 Hm1] & Hbm & Hcm).
      + done.
      + right. exists current. apply Hns. by left.
      + intros u. rewrite Hta, Ht1, last_snoc. intros [= <-]. apply Hns. by left.
      + rewrite Hsa, Hs1. pose proof (size_universe_step (stack σ) current HU Hstack). lia.
      + destruct (IHns σm)
          as (σb & Hfe & Hinvb & Hsb & Htb & Hvb & Hvall & [m2 Hm2] & Hbb & Hcb).
        * done.
        * by rewrite Hsm.
        * by rewrite Htm.
        * intros w Hw. apply Hns. by right.
        * exists σb. cbn [for_each]. rewrite Hd. cbn [bind].
          split; [done|]. split_and!; [done | done | done | set_solver | | | | ].
          -- intros w [->|Hw]%elem_of_cons; [set_solver | by apply Hvall].
          -- exists (m1 ++ m2). by rewrite Hm2, Hm1, app_assoc.
          -- intros Hnil w [->|Hw]%elem_of_cons; [|by apply Hbb].
             rewrite Hsb, <- Hsa, <- Hsm. apply Hbm.
             rewrite Hm2 in Hnil. by apply app_eq_nil in Hnil as [? _].
          -- intros w [->|Hw]%elem_of_cons Hws; [|by apply Hcb].
             rewrite Hm2. apply covered_app. apply Hcm.
             ++ by rewrite Hta, Ht1, last_snoc.
             ++ by rewrite Hsm, Hsa, <- Hsb. }
  destruct (Hloop (successors d0 current) σ1)
    as (σ2 & Hfe & Hinv2 & Hs2 & Ht2 & Hv2 & Hvall & [m Hm] & Hb2 & Hc2);
    [done | done | done | by intros v ?%edge_of_successors |].
  rewrite Hfe. cbn [bind].
  apply (leave_spec σ σ2 current); try done.
  - by rewrite Hs2.
  - by rewrite Ht2.
  - set_solver.
  - exists m. by rewrite Hm, Hf1.
  - intros v Hv. by apply Hvall, edge_of_successors.
  - intros Hnil v Hv. by apply Hb2, edge_of_successors.
  - intros v Hv. by apply Hc2, edge_of_successors.
Qed.

End dfs_facts.

Section detector_facts.
Import Py Graph Cycles.
Context (d0 : dict (list string)).

Lemma size_list_to_set_le (l : list string) :
  size (list_to_set (C:=gset string) l) ≤ length l.
Proof.
  induction l as [|x l IH]; cbn.
  - by rewrite size_empty.
  - rewrite size_union_alt, size_singleton.
    assert (size (list_to_set (C:=gset string) l ∖ {[x]})
            ≤ size (list_to_set (C:=gset string) l)) as H
      by (apply subseteq_size; set_solver).
    lia.
Qed.

Lemma initial_inv : dfs_inv d0 (DfsState ∅ ∅ [] ∅ d0 []).
Proof.
  constructor; cbn [visited stack found_cycles seen_signatures adjacency_list trail].
  - exists []. unfold with_empty_entries. cbn. rewrite app_nil_r.
    split_and!; [done | constructor | by intros k ?%elem_of_nil].
  - done.
  - constructor.
  - done.
  - done.
  - apply empty_subseteq.
  - by intros u ?%elem_of_empty.
  - constructor.
  - done.
  - constructor.
  - by intros ? u ?%elem_of_empty.
  - by intros u v ?%elem_of_empty.
  - by intros u ?%elem_of_empty.
  - by intros u ?%elem_of_empty.
Qed.

(** The loop over the keys. *)
Lemma roots_spec (roots : list string) : ∀ σ,
  dfs_inv d0 σ → stack σ = ∅ → (∀ r, r ∈ roots → r ∈ keys d0) →
  ∃ σ', for_each (visit_root (depth_budget d0)) roots σ = Ok σ' ∧
        dfs_inv d0 σ' ∧ stack σ' = ∅ ∧ visited σ ⊆ visited σ' ∧
        ∀ r, r ∈ roots → r ∈ visited σ'.
Proof.
  induction roots as [|r roots IH]; intros σ Hinv Hstack Hroots.
  - exists σ. split; [reflexivity|]. split_and!; [done | done | done |].
    by intros r ?%elem_of_nil.
  - assert (∃ σm, visit_root (depth_budget d0) r σ = Ok σm ∧
                  dfs_inv d0 σm ∧ stack σm = ∅ ∧ visited σ ⊆ visited σm ∧
                  r ∈ visited σm) as (σm & Hvr & Hinvm & Hsm & Hvm & Hrm).
    { unfold visit_root. case_decide as Hr.
      - exists σ. by split_and!.
      - destruct (dfs_spec d0 (depth_budget d0) r (with_trail [] σ))
          as (σm & Hd & Hinvm & Hsm & Htm & Hvm & Hrm & _ & _ & _).
        + destruct Hinv as [Hadj Hst Htr Hch Hsv HvU Hvk Hf Hseen Hsig Hfin Hcl Hre Hcov].
          constructor; cbn [with_trail visited stack found_cycles seen_signatures
                                       adjacency_list trail];
            [done | by rewrite Hstack | constructor | done ..].
        + left. apply Hroots. by left.
        + by intros u [=].
        + cbn [with_trail stack]. rewrite Hstack, difference_empty_L.
          unfold depth_budget, universe.
          pose proof (size_list_to_set_le (mentioned d0)). lia.
        + exists σm. split_and!; try done. by rewrite Hsm. }
    destruct (IH σm) as (σ' & Hfe & Hinv' & Hs' & Hv' & Hall);
      [done | done | by intros x Hx; apply Hroots; right |].
    exists σ'. cbn [for_each]. rewrite Hvr. cbn [bind].
    split_and!; [done | done | done | set_solver |].
    intros x [->|Hx]%elem_of_cons; [set_solver | by apply Hall].
Qed.

Lemma is_cycle_tc loop : is_cycle d0 loop → ∃ a, tc (edge_of d0) a a.
Proof.
  intros (_ & Hch & a & b & Hh & Hl & Hba). exists a.
  eapply tc_rtc_l; [by eapply chain_rtc | by apply tc_once].
Qed.

(** What a run of the detector on [d0] yields. *)
Lemma find_hierarchy_cycles_spec :
  ∃ cycles extra,
    find_hierarchy_cycles d0 = Ok (cycles, with_empty_entries d0 extra) ∧
    Forall (is_cycle d0) cycles ∧
    NoDup (sorted <$> cycles) ∧
    (cycles = [] ↔ acyclic d0) ∧
    NoDup extra ∧
    ∀ k, k ∈ extra ↔ (k ∉ keys d0) ∧ ∃ u, edge_of d0 u k.
Proof.
  destruct (roots_spec (keys d0) _ initial_inv) as (σ & Hfe & Hinv & Hs & _ & Hall);
    [done | done |].
  unfold find_hierarchy_cycles. rewrite Hfe. cbn [bind].
  destruct Hinv as [(extra & Hadj & Hnd & Hextra) Hst Htr Hch Hsv HvU Hvk Hf Hseen Hsig Hfin Hcl Hre Hcov].
  exists (found_cycles σ), extra. rewrite Hadj.
  split_and!; [done | done | done | | done |].
  - split.
    + intros Hnil u Htc.
      assert (u ∈ keys d0) as Hu.
      { inversion Htc as [? ? Hv|? v ? Hv _]; subst; by eapply edge_of_key. }
      apply (Hfin Hnil u); [by apply Hall | | done].
      rewrite Hs. apply not_elem_of_empty.
    + intros Hac. destruct (found_cycles σ) as [|loop ?]; [done|].
      apply Forall_cons in Hf as [Hloop _].
      destruct (is_cycle_tc loop Hloop) as [a Ha]. by destruct (Hac a).
  - intros k. split.
    + intros Hk. destruct (Hextra k Hk) as [Hnk Hvis]. split; [done|].
      by destruct (Hre k Hvis).
    + intros [Hnk [u Hu]].
      assert (k ∈ visited σ) as Hvis.
      { apply (Hcl u k); [|rewrite Hs; apply not_elem_of_empty|done].
        apply Hall. by eapply edge_of_key. }
      apply Hvk in Hvis. rewrite Hadj, keys_with_empty_entries in Hvis.
      by apply elem_of_app in Hvis as [?|?].
Qed.







End detector_facts.

Section cycle_claims.
Import Py Graph Cycles.

(** The examples of the specification. *)
Example three_cycle_reported_once :
  find_hierarchy_cycles [("A", ["B"]); ("B", ["C"]); ("C", ["A"])]
  = Ok ([["A"; "B"; "C"]], [("A", ["B"]); ("B", ["C"]); ("C", ["A"])]).
Proof. reflexivity. Qed.

Example two_cycle_reported_once :
  find_hierarchy_cycles [("A", ["B"]); ("B", ["A"])]
  = Ok ([["A"; "B"]], [("A", ["B"]); ("B", ["A"])]).
Proof. reflexivity. Qed.

Example acyclic_hierarchy_no_report :
  find_hierarchy_cycles [("A", ["B"; "C"]); ("B", ["D"])]
  = Ok ([], [("A", ["B"; "C"]); ("B", ["D"]); ("D", []); ("C", [])]).
Proof. reflexivity. Qed.


(** Two cycles on disjoint node sets are both reported. *)
Example disjoint_cycles_both_reported :
  find_hierarchy_cycles [("A", ["B"]); ("B", ["A"]); ("C", ["D"]); ("D", ["C"])]
  = Ok ([["A"; "B"]; ["C"; "D"]],
        [("A", ["B"]); ("B", ["A"]); ("C", ["D"]); ("D", ["C"])]).
Proof. reflexivity. Qed.


End cycle_claims.

(* ===================================================================== *)
(** * The breadth-first implementation meets the library contract        *)
(* ===================================================================== *)

Section bfs_facts.
Import Py Graph NX.
Context (G : DiGraph) (s : string).
Implicit Types (t u : string) (k : nat) (p : list string).

Lemma elem_of_expand (R : gset string) t :
  t ∈ expand G R ↔ t ∈ R ∨ ∃ u, u ∈ R ∧ edge_of G u t.
Proof.
  unfold expand. rewrite elem_of_union, elem_of_list_to_set, list_elem_of_bind.
  split; (intros [?|(u & H1 & H2)]; [by left | right; exists u]).
  - split; [by apply elem_of_elements | by apply edge_of_successors].
  - split; [by apply edge_of_successors | by apply elem_of_elements].
Qed.

Lemma within_0 t : t ∈ within G s 0 ↔ t = s.
Proof. apply elem_of_singleton. Qed.

Lemma within_S k t :
  t ∈ within G s (S k) ↔ t ∈ within G s k ∨ ∃ u, u ∈ within G s k ∧ edge_of G u t.
Proof. apply elem_of_expand. Qed.

Lemma within_le k k' : k ≤ k' → within G s k ⊆ within G s k'.
Proof.
  induction 1 as [|k' _ IH]; [done|]. intros t Ht. apply within_S. left. by apply IH.
Qed.

Lemma within_source k : s ∈ within G s k.
Proof. apply (within_le 0 k); [lia|]. by apply within_0. Qed.

(** Every node of a layer is the end of a walk from the source. *)
Lemma within_walk k t :
  t ∈ within G s k → ∃ p, is_walk G s t p ∧ length p ≤ S k.
Proof.
  revert t. induction k as [|k IH]; intros t Ht.
  - apply within_0 in Ht as ->. exists [s]. by split_and!.
  - apply within_S in Ht as [Ht|(u & Hu & Hut)].
    + destruct (IH t Ht) as (p & Hp & Hlen). exists p. split; [done | lia].
    + destruct (IH u Hu) as (p & (Hh & Hl & Hc) & Hlen). exists (p ++ [t]).
      split; [|rewrite length_app; cbn; lia]. split_and!.
      * destruct p; [done | by cbn in *].
      * apply last_snoc.
      * apply chain_snoc; [done|]. intros u' Hu'. congruence.
Qed.

(** The end of a chain that starts in a layer lies in a later layer. *)
Lemma chain_within p : ∀ k a t,
  chain (edge_of G) p → head p = Some a → last p = Some t →
  a ∈ within G s k → t ∈ within G s (k + length p - 1).
Proof.
  induction p as [|x p IH]; intros k a t Hc Hh Hl Ha; [done|].
  cbn in Hh. simplify_eq. destruct p as [|y p].
  - cbn in Hl. simplify_eq. by replace (k + length [t] - 1) with k by (cbn; lia).
  - destruct Hc as [Hay Hc]. rewrite last_cons_cons in Hl.
    replace (k + length (a :: y :: p) - 1) with (S k + length (y :: p) - 1)
      by (cbn; lia).
    apply (IH (S k) y t); [done | done | done |].
    apply within_S. right. by exists a.
Qed.

Lemma walk_within t p : is_walk G s t p → t ∈ within G s (length p - 1).
Proof.
  intros (Hh & Hl & Hc).
  apply (chain_within p 0 s t Hc Hh Hl). by apply within_0.
Qed.

Lemma reachable_walk t : reachable G s t ↔ ∃ p, is_walk G s t p.
Proof.
  split.
  - intros (p & ? & ? & ?)%rtc_chain. by exists p.
  - intros (p & Hh & Hl & Hc). by eapply chain_rtc.
Qed.

(** A layer that did not grow is closed under successors. *)
Lemma within_stable j :
  within G s (S j) = within G s j → ∀ k, j ≤ k → within G s k = within G s j.
Proof.
  intros Heq k. induction 1 as [|k _ IH]; [done|].
  cbn [within]. rewrite IH. exact Heq.
Qed.

Lemma within_grows k :
  (∃ j, j ≤ k ∧ within G s (S j) = within G s j) ∨ k + 1 ≤ size (within G s k).
Proof.
  induction k as [|k [(j & Hj & Heq)|Hsize]].
  - right. cbn. by rewrite size_singleton.
  - left. exists j. split; [lia | done].
  - destruct (decide (within G s (S k) = within G s k)) as [Heq|Hne].
    + left. exists k. split; [lia | done].
    + right. assert (within G s k ⊂ within G s (S k)) as Hsub.
      { split; [apply within_le; lia|]. intros Hsup. apply Hne.
        apply set_eq. intros t. split; [apply Hsup | apply within_le; lia]. }
      apply subset_size in Hsub. lia.
Qed.

Context (Hwf : wf_graph G) (Hs : s ∈ nodes G).

Lemma within_nodes k t : t ∈ within G s k → t ∈ nodes G.
Proof.
  revert t. induction k as [|k IH]; intros t Ht.
  - by apply within_0 in Ht as ->.
  - apply within_S in Ht as [Ht|(u & Hu & Hut)]; [by apply IH|].
    apply wf_graph_alt in Hwf as [_ H]. apply (H u). by apply edge_of_successors.
Qed.

Lemma within_saturated k :
  length (nodes G) ≤ k → within G s k = within G s (length (nodes G)).
Proof.
  intros Hk. destruct (within_grows (length (nodes G))) as [(j & Hj & Heq)|Hsize].
  - rewrite (within_stable j Heq k) by lia.
    by rewrite (within_stable j Heq (length (nodes G))) by lia.
  - exfalso.
    assert (size (within G s (length (nodes G))) ≤ length (nodes G)); [|lia].
    etrans; [|apply (size_list_to_set_le (nodes G))].
    apply subseteq_size. intros t Ht. apply elem_of_list_to_set.
    by eapply within_nodes.
Qed.

(** The last layer holds exactly the nodes reachable from the source. *)
Lemma within_reachable t :
  t ∈ within G s (length (nodes G)) ↔ reachable G s t.
Proof.
  rewrite reachable_walk. split.
  - intros (p & Hp & _)%within_walk. by exists p.
  - intros (p & Hp%walk_within).
    destruct (decide (length p - 1 ≤ length (nodes G))) as [Hle|Hgt].
    + by apply (within_le _ _ Hle).
    + by rewrite <- (within_saturated (length p - 1)) by lia.
Qed.

(** The walk read back from the layers ends in the first layer that holds
    its target. *)
Lemma trace_back_spec k : ∀ t,
  t ∈ within G s k →
  is_walk G s t (trace_back G s k t) ∧
  ∃ j, length (trace_back G s k t) = S j ∧ j ≤ k ∧
       ∀ i, i < j → t ∉ within G s i.
Proof.
  induction k as [|k IH]; intros t Ht.
  - apply within_0 in Ht as ->. split; [done|].
    exists 0. split_and!; [done | done | intros; lia].
  - cbn [trace_back]. case_decide as Hk.
    + destruct (IH t Hk) as (Hw & j & Hlen & Hj & Hmin). split; [done|].
      exists j. split_and!; [done | lia | done].
    + apply within_S in Ht as [Ht|(u & Hu & Hut)]; [done|].
      destruct (find _ _) as [u'|] eqn:Hfind.
      * apply find_some in Hfind as [Hin Hb]. apply list_elem_of_In in Hin.
        apply elem_of_elements in Hin. apply bool_decide_eq_true in Hb.
        apply edge_of_successors in Hb.
        destruct (IH u' Hin) as ((Hh & Hl & Hc) & j & Hlen & Hj & Hmin).
        assert (j = k) as ->.
        { destruct (decide (j = k)) as [|Hjk]; [done|]. exfalso. apply Hk.
          apply (within_le (S j) k); [lia|]. apply within_S. right.
          exists u'. split; [|done].
          pose proof (walk_within u' _ (conj Hh (conj Hl Hc))) as Hw.
          rewrite Hlen in Hw. cbn in Hw. by rewrite Nat.sub_0_r in Hw. }
        split.
        -- split_and!.
           ++ destruct (trace_back G s k u'); [done | by cbn in *].
           ++ apply last_snoc.
           ++ apply chain_snoc; [done|]. intros x Hx. congruence.
        -- exists (S k). rewrite length_app, Hlen. cbn.
           split_and!; [lia | done |].
           intros i Hi Hti. apply Hk. apply (within_le i k); [lia | done].
      * exfalso. eapply find_none in Hfind.
        -- apply bool_decide_eq_false in Hfind. apply Hfind.
           by apply edge_of_successors.
        -- by apply list_elem_of_In, elem_of_elements.
Qed.

End bfs_facts.

Section bfs_contract.
Import Py Graph NX.

Lemma bfs_descendants_spec G s :
  wf_graph G → s ∈ nodes G →
  ∃ D, bfs_descendants G s = Ok D ∧ ∀ t, t ∈ D ↔ t ≠ s ∧ reachable G s t.
Proof.
  intros Hwf Hs. unfold bfs_descendants. rewrite decide_True by done.
  eexists. split; [reflexivity|]. intros t.
  rewrite elem_of_difference, elem_of_singleton, within_reachable by done. tauto.
Qed.

Lemma bfs_shortest_path_spec G s t :
  wf_graph G → s ∈ nodes G → t ∈ nodes G → reachable G s t →
  ∃ p, bfs_shortest_path G s t = Ok p ∧ is_shortest_walk G s t p.
Proof.
  intros Hwf Hs Ht Hreach. unfold bfs_shortest_path.
  rewrite decide_True by done.
  apply within_reachable in Hreach; [|done..].
  rewrite decide_True by done. eexists. split; [reflexivity|].
  destruct (trace_back_spec G s _ t Hreach) as (Hw & j & Hlen & _ & Hmin).
  split; [done|]. intros q Hq. rewrite Hlen.
  pose proof (walk_within G s t q Hq) as Hin.
  destruct (decide (length q - 1 < j)) as [Hlt|Hge]; [by destruct (Hmin _ Hlt)|].
  destruct Hq as (Hh & _). destruct q; [done | cbn in *; lia].
Qed.

(** The contract is met, so it is not void. *)
Lemma bfs_nx_contract : nx_contract bfs_nx.
Proof.
  split.
  - intros G s. apply bfs_descendants_spec.
  - intros G s t. apply bfs_shortest_path_spec.
Qed.

End bfs_contract.

(* ===================================================================== *)
(** * Facts about [identify_broader_issues]                               *)
(* ===================================================================== *)

Section broader_facts.
Import Py Graph NX Broader.
Context (nx : NetworkX) (Hnx : nx_contract nx).
Context (G : DiGraph) (Hwf : wf_graph G).
Implicit Types (s t n : string) (dm : dict (gset string)).

Lemma descendants_map_spec :
  ∃ dm, map_each (λ n, bind (descendants G n) (λ ds, Ok (n, ds))) (nodes G) = Ok dm ∧
        descendants_map_ok G dm.
Proof.
  destruct Hnx as [Hdesc _].
  assert (∀ l, (∀ n, n ∈ l → n ∈ nodes G) →
    ∃ dm, map_each (λ n, bind (descendants G n) (λ ds, Ok (n, ds))) l = Ok dm ∧
          keys dm = l ∧
          Forall (λ e, ∀ t, t ∈ e.2 ↔ t ≠ e.1 ∧ reachable G e.1 t) dm) as Hgen.
  { induction l as [|n l IH]; intros Hl.
    - exists []. by split_and!.
    - destruct (Hdesc G n Hwf) as (D & HD & Hspec); [apply Hl; by left|].
      destruct IH as (dm & Hdm & Hk & Hall); [intros x Hx; apply Hl; by right|].
      exists ((n, D) :: dm). cbn [map_each]. rewrite HD. cbn [bind]. rewrite Hdm.
      cbn [bind]. split_and!; [done | by cbn; f_equal | by constructor]. }
  destruct (Hgen (nodes G)) as (dm & Hdm & Hk & Hall); [done|].
  exists dm. split; [done|]. split; [done|].
  intros n D HnD. apply dict_get_Some_elem in HnD.
  rewrite Forall_forall in Hall. apply (Hall _ HnD).
Qed.

Context (dm : dict (gset string)) (Hdm : descendants_map_ok G dm).

(** [descendants_map.get(n, set())]. *)
Abbreviation desc n := (default ∅ (dict_get dm n)).

Lemma elem_of_desc n t : t ∈ desc n ↔ n ∈ nodes G ∧ t ≠ n ∧ reachable G n t.
Proof.
  destruct Hdm as [Hk Hspec]. destruct (dict_get dm n) as [D|] eqn:E; cbn.
  - rewrite (Hspec n D E). apply dict_get_Some_key in E. rewrite Hk in E. tauto.
  - apply dict_get_None in E. rewrite Hk in E.
    split; [by intros ?%elem_of_empty | tauto].
Qed.

(** A node reachable from a node of the graph in one step or more is a
    node of the graph. *)
Lemma reachable_node s t : s ∈ nodes G → reachable G s t → t ∈ nodes G.
Proof.
  intros Hs. induction 1 as [|s u t Hsu _ IH]; [done|]. apply IH.
  apply wf_graph_alt in Hwf as [_ H]. apply (H s). by apply edge_of_successors.
Qed.

Lemma check_pair_spec s t acc :
  s ∈ nodes G → t ≠ s → reachable G s t →
  ∃ new, check_pair G dm s t acc = Ok (acc ++ new) ∧
         pair_of <$> new = (if decide (s ∈ desc t) then [(s, t)] else []) ∧
         Forall (witness_ok G) new.
Proof.
  intros Hs Hts Hst. unfold check_pair. destruct Hnx as [_ Hsp].
  case_decide as Hback.
  - apply elem_of_desc in Hback as (Ht & _ & Hback).
    destruct (Hsp G s t) as (fwd & Hfwd & Hfwd_ok); [done..|].
    destruct (Hsp G t s) as (back & Hbk & Hbk_ok); [done..|].
    rewrite Hfwd. cbn [bind]. rewrite Hbk. cbn [bind].
    eexists [_]. split; [reflexivity|]. split; [done|].
    constructor; [|done]. by exists fwd, back.
  - exists []. rewrite app_nil_r. by split_and!.
Qed.

Lemma inner_loop_spec s (targets : list string) : ∀ acc,
  s ∈ nodes G → (∀ t, t ∈ targets → t ≠ s ∧ reachable G s t) →
  ∃ new, for_each (check_pair G dm s) targets acc = Ok (acc ++ new) ∧
         pair_of <$> new = (λ t, (s, t)) <$> filter (λ t, s ∈ desc t) targets ∧
         Forall (witness_ok G) new.
Proof.
  induction targets as [|t targets IH]; intros acc Hs Hall.
  - exists []. rewrite app_nil_r. by split_and!.
  - destruct (Hall t) as [Hts Hst]; [by left|].
    destruct (check_pair_spec s t acc Hs Hts Hst) as (new1 & H1 & Hp1 & Hw1).
    destruct (IH (acc ++ new1) Hs) as (new2 & H2 & Hp2 & Hw2);
      [intros x Hx; apply Hall; by right|].
    exists (new1 ++ new2). cbn [for_each]. rewrite H1. cbn [bind]. rewrite H2.
    split_and!.
    + by rewrite app_assoc.
    + rewrite fmap_app, Hp1, Hp2, filter_cons. by case_decide.
    + by apply Forall_app.
Qed.

Lemma outer_loop_spec (sources : list string) : ∀ acc,
  (∀ s, s ∈ sources → s ∈ nodes G) →
  ∃ new, for_each (check_source G dm) sources acc = Ok (acc ++ new) ∧
         pair_of <$> new = sources ≫= pairs_from dm ∧
         Forall (witness_ok G) new.
Proof.
  induction sources as [|s sources IH]; intros acc Hall.
  - exists []. rewrite app_nil_r. by split_and!.
  - assert (s ∈ nodes G) as Hs by (apply Hall; by left).
    assert (∃ ds, dict_get dm s = Some ds) as [ds Hds].
    { apply dict_get_is_Some. by rewrite (proj1 Hdm). }
    destruct (inner_loop_spec s (elements ds) acc Hs) as (new1 & H1 & Hp1 & Hw1).
    { intros t Ht%elem_of_elements.
      assert (t ∈ desc s) as Ht' by (by rewrite Hds).
      apply elem_of_desc in Ht'. tauto. }
    destruct (IH (acc ++ new1)) as (new2 & H2 & Hp2 & Hw2);
      [intros x Hx; apply Hall; by right|].
    exists (new1 ++ new2). cbn [for_each]. unfold check_source at 1.
    rewrite Hds, H1. cbn [bind]. rewrite H2. split_and!.
    + by rewrite app_assoc.
    + rewrite fmap_app, Hp1, Hp2, bind_cons. f_equal.
      unfold pairs_from. by rewrite Hds.
    + by apply Forall_app.
Qed.

Lemma elem_of_pairs_from s p :
  p ∈ pairs_from dm s ↔ p.1 = s ∧ p.2 ∈ desc s ∧ s ∈ desc p.2.
Proof.
  unfold pairs_from. rewrite list_elem_of_fmap. split.
  - intros (t & -> & [Hb Ht]%list_elem_of_filter). cbn.
    by apply elem_of_elements in Ht.
  - destruct p as [s' t]. cbn. intros (-> & Ht & Hb). exists t. split; [done|].
    apply list_elem_of_filter. split; [done | by apply elem_of_elements].
Qed.

End broader_facts.

Section broader_spec.
Import Py Graph NX Broader.
Context (nx : NetworkX) (Hnx : nx_contract nx).
Context (G : DiGraph) (Hwf : wf_graph G).

(** What a run of the detector on [G] yields. *)
Lemma identify_broader_issues_spec :
  ∃ out, identify_broader_issues G = Ok (out, G) ∧
         NoDup (pair_of <$> out) ∧
         (∀ s t, (s, t) ∈ pair_of <$> out ↔ contradictory G s t) ∧
         Forall (witness_ok G) out.
Proof.
  destruct (descendants_map_spec nx Hnx G Hwf) as (dm & Hmap & Hdm).
  destruct (outer_loop_spec nx Hnx G Hwf dm Hdm (nodes G) []) as (out & Hrun & Hp & Hw);
    [done|].
  exists out. unfold identify_broader_issues. rewrite Hmap. cbn [bind].
  rewrite Hrun. cbn [bind app]. split_and!; [done | | | done].
  - rewrite Hp. apply NoDup_bind.
    + intros s1 s2 p _ _ [H1 _]%elem_of_pairs_from [H2 _]%elem_of_pairs_from;
        [congruence | done..].
    + intros s _. unfold pairs_from. apply NoDup_fmap_2_strong.
      * intros t1 t2 _ _. congruence.
      * apply NoDup_filter, NoDup_elements.
    + apply Hwf.
  - intros s t. rewrite Hp, list_elem_of_bind. unfold contradictory. split.
    + intros (s' & (Hs & Ht & Hb)%elem_of_pairs_from & Hs'). cbn in *. subst s'.
      apply (elem_of_desc G dm Hdm) in Ht as (_ & Hne & Hst).
      apply (elem_of_desc G dm Hdm) in Hb as (Htn & _ & Hts).
      split_and!; done.
    + intros (Hs & Ht & Hne & Hst & Hts). exists s. split; [|done].
      apply elem_of_pairs_from. cbn. split; [done|].
      split; apply (elem_of_desc G dm Hdm); split_and!; done.
Qed.

End broader_spec.

Section broader_claims.
Import Py Graph NX Broader Cycles Main.

Lemma filter_fmap_absent {A B : Type} `{EqDecision B} (f : A → B) (l : list A) (y : B) :
  y ∉ f <$> l → filter (λ x, f x = y) l = [].
Proof.
  induction l as [|x l IH]; [done|].
  rewrite fmap_cons, not_elem_of_cons. intros [Hne Hnin].
  rewrite filter_cons_False by congruence. auto.
Qed.

Lemma NoDup_fmap_occurs_once {A B : Type} `{EqDecision B} (f : A → B) (l : list A) (y : B) :
  NoDup (f <$> l) → y ∈ f <$> l → length (filter (λ x, f x = y) l) = 1.
Proof.
  induction l as [|x l IH]; [by intros _ ?%elem_of_nil|].
  rewrite fmap_cons, NoDup_cons, elem_of_cons. intros [Hx Hnd] Hy.
  rewrite filter_cons. case_decide as Hfx.
  - subst y. cbn. by rewrite filter_fmap_absent.
  - destruct Hy as [->|Hy]; [done | auto].
Qed.

(** The graph of the three-node example. *)
Lemma three_cycle_contradictory s t :
  contradictory three_cycle s t ↔
  (s, t) ∈ [("A", "B"); ("A", "C"); ("B", "A"); ("B", "C"); ("C", "A"); ("C", "B")].
Proof.
  set (G := three_cycle).
  assert (edge_of G "A" "B") as eAB by (eexists; split; [reflexivity | compute_done]).
  assert (edge_of G "B" "C") as eBC by (eexists; split; [reflexivity | compute_done]).
  assert (edge_of G "C" "A") as eCA by (eexists; split; [reflexivity | compute_done]).
  assert (∀ x, x ∈ nodes G ↔ x = "A" ∨ x = "B" ∨ x = "C") as Hnodes.
  { intros x. change (nodes G) with ["A"; "B"; "C"].
    rewrite !elem_of_cons, elem_of_nil. tauto. }
  unfold contradictory, reachable. rewrite !Hnodes, !elem_of_cons, elem_of_nil. split.
  - intros ([-> | [-> | ->]] & [-> | [-> | ->]] & Hne & _); try done; tauto.
  - intros H. destruct_or!; try done; simplify_eq;
      (split_and!; [tauto | tauto | done | | ]);
      eauto using rtc_l, rtc_once.
Qed.

(** C1: on every graph [networkx] can hold, an ordered pair is reported
    exactly when source and target are distinct nodes each reachable from the
    other; such a pair is reported once in each direction, so twice as an
    unordered pair; and the three-node cycle yields six reports. This holds
    for any [descendants] and [shortest_path] that meet the library contract
    (and the graph is returned as it was given). *)
Theorem broader_reports_mutual_pairs (nx : NetworkX) (G : DiGraph) :
  nx_contract nx → wf_graph G →
  (∃ out, identify_broader_issues G = Ok (out, G) ∧
     (∀ s t, (∃ c, c ∈ out ∧ c_from c = s ∧ c_to c = t) ↔ contradictory G s t) ∧
     (∀ s t, contradictory G s t →
             occurrences s t out = 1 ∧ occurrences t s out = 1)) ∧
  (∃ out, identify_broader_issues three_cycle = Ok (out, three_cycle) ∧
          length out = 6).
Proof.
  intros Hnx Hwf. split.
  - destruct (identify_broader_issues_spec nx Hnx G Hwf) as (out & Hrun & Hnd & Hiff & _).
    exists out. split; [done|]. split.
    + intros s t. rewrite <- Hiff, list_elem_of_fmap. unfold pair_of. split.
      * intros (c & Hc & <- & <-). by exists c.
      * intros (c & [= -> ->] & Hc). by exists c.
    + intros s t Hst.
      assert (contradictory G t s) as Hts by (unfold contradictory in *; naive_solver).
      unfold occurrences. split; apply NoDup_fmap_occurs_once; try done; by apply Hiff.
  - destruct (identify_broader_issues_spec nx Hnx three_cycle)
      as (out & Hrun & Hnd & Hiff & _).
    { apply wf_graph_add_edges_from, wf_graph_empty. }
    exists out. split; [done|].
    rewrite <- (length_fmap pair_of).
    change 6 with (length [("A", "B"); ("A", "C"); ("B", "A"); ("B", "C");
                           ("C", "A"); ("C", "B")]).
    apply Permutation_length, NoDup_Permutation; [done | compute_done |].
    intros [s t]. by rewrite Hiff, three_cycle_contradictory.
Qed.

Lemma broader_reports_mutual_pairs_witness :
  (∃ out, identify_broader_issues (H:=bfs_nx) mutual_pair = Ok (out, mutual_pair) ∧
     (∀ s t, (∃ c, c ∈ out ∧ c_from c = s ∧ c_to c = t) ↔
             contradictory mutual_pair s t) ∧
     (∀ s t, contradictory mutual_pair s t →
             occurrences s t out = 1 ∧ occurrences t s out = 1)) ∧
  (∃ out, identify_broader_issues (H:=bfs_nx) three_cycle = Ok (out, three_cycle) ∧
          length out = 6).
Proof.
  apply (broader_reports_mutual_pairs bfs_nx mutual_pair).
  - exact bfs_nx_contract.
  - apply wf_graph_add_edges_from, wf_graph_empty.
Defined.

(** The examples of the specification, run with the breadth-first
    implementation. *)
Example mutual_pair_two_reports :
  identify_broader_issues (H:=bfs_nx) mutual_pair
  = Ok ([Contradiction "A" "B" ["A"; "B"; "A"]; Contradiction "B" "A" ["B"; "A"; "B"]],
        [("A", ["B"]); ("B", ["A"])]).
Proof. reflexivity. Qed.

Example no_return_path_no_report :
  identify_broader_issues (H:=bfs_nx) (add_edges_from [("A", "B"); ("B", "C")] [])
  = Ok ([], [("A", ["B"]); ("B", ["C"]); ("C", [])]).
Proof. reflexivity. Qed.

(** C3: every pair of distinct nodes that reach each other gets a report,
    and the path of every report is a shortest walk from source to target
    followed by a shortest walk from target back to source without its first
    node, so the target is not doubled at the junction; the path starts and
    ends at the source and each consecutive pair on it is an edge. *)
Theorem witness_path_shortest_round_trip (nx : NetworkX) (G : DiGraph) :
  nx_contract nx → wf_graph G →
  ∃ out, identify_broader_issues G = Ok (out, G) ∧
    (∀ s t, contradictory G s t → ∃ c, c ∈ out ∧ c_from c = s ∧ c_to c = t) ∧
    ∀ c, c ∈ out →
      contradictory G (c_from c) (c_to c) ∧
      ∃ fwd back,
        c_path c = fwd ++ drop 1 back ∧
        is_shortest_walk G (c_from c) (c_to c) fwd ∧
        is_shortest_walk G (c_to c) (c_from c) back ∧
        length (c_path c) + 1 = length fwd + length back ∧
        head (c_path c) = Some (c_from c) ∧
        last (c_path c) = Some (c_from c) ∧
        chain (edge_of G) (c_path c).
Proof.
  intros Hnx Hwf.
  destruct (identify_broader_issues_spec nx Hnx G Hwf) as (out & Hrun & _ & Hiff & Hw).
  exists out. split; [done|]. split.
  { intros s t Hst. apply Hiff, list_elem_of_fmap in Hst as (c & [= -> ->] & Hc).
    by exists c. }
  intros c Hc.
  rewrite Forall_forall in Hw. destruct (Hw c Hc) as (fwd & back & Hpath & Hf & Hb).
  assert (contradictory G (c_from c) (c_to c)) as Hcon.
  { apply Hiff, list_elem_of_fmap. by exists c. }
  assert (c_from c ≠ c_to c) as Hne by (by destruct Hcon as (_ & _ & ? & _)).
  split; [done|].
  exists fwd, back. split_and!; [done | done | done | ..];
    destruct Hf as [(Hfh & Hfl & Hfc) _], Hb as [(Hbh & Hbl & Hbc) _]; rewrite Hpath.
  - destruct back; [done|]. cbn [drop]. rewrite ?drop_0, length_app. cbn. lia.
  - destruct fwd; [done | by cbn in *].
  - destruct back as [|x [|y back]]; [done | cbn in *; congruence |].
    cbn [drop]. rewrite ?drop_0, last_app. rewrite last_cons_cons in Hbl.
    by rewrite Hbl.
  - destruct back as [|x back]; [done|]. cbn in Hbh. simplify_eq. cbn [drop].
    rewrite ?drop_0. by apply (chain_app _ fwd back (c_to c)).
Qed.

Lemma witness_path_shortest_round_trip_witness :
  ∃ out, identify_broader_issues (H:=bfs_nx) three_cycle = Ok (out, three_cycle) ∧
    out = [Contradiction "A" "C" ["A"; "B"; "C"; "A"];
           Contradiction "A" "B" ["A"; "B"; "C"; "A"];
           Contradiction "B" "C" ["B"; "C"; "A"; "B"];
           Contradiction "B" "A" ["B"; "C"; "A"; "B"];
           Contradiction "C" "A" ["C"; "A"; "B"; "C"];
           Contradiction "C" "B" ["C"; "A"; "B"; "C"]] ∧
    (∀ s t, contradictory three_cycle s t →
            ∃ c, c ∈ out ∧ c_from c = s ∧ c_to c = t) ∧
    ∀ c, c ∈ out →
      contradictory three_cycle (c_from c) (c_to c) ∧
      ∃ fwd back,
        c_path c = fwd ++ drop 1 back ∧
        is_shortest_walk three_cycle (c_from c) (c_to c) fwd ∧
        is_shortest_walk three_cycle (c_to c) (c_from c) back ∧
        length (c_path c) + 1 = length fwd + length back ∧
        head (c_path c) = Some (c_from c) ∧
        last (c_path c) = Some (c_from c) ∧
        chain (edge_of three_cycle) (c_path c).
Proof.
  destruct (witness_path_shortest_round_trip bfs_nx three_cycle bfs_nx_contract
              (wf_graph_add_edges_from _ _ wf_graph_empty))
    as (out & Hrun & Hall & Hpaths).
  exists out. split; [exact Hrun|]. split; [|by split].
  assert (identify_broader_issues (H:=bfs_nx) three_cycle
          = Ok ([Contradiction "A" "C" ["A"; "B"; "C"; "A"];
                 Contradiction "A" "B" ["A"; "B"; "C"; "A"];
                 Contradiction "B" "C" ["B"; "C"; "A"; "B"];
                 Contradiction "B" "A" ["B"; "C"; "A"; "B"];
                 Contradiction "C" "A" ["C"; "A"; "B"; "C"];
                 Contradiction "C" "B" ["C"; "A"; "B"; "C"]], three_cycle)) as Hval
    by reflexivity.
  rewrite Hrun in Hval. by injection Hval as ->.
Defined.

(** C10, counterexample: for the one-link hierarchy A→B, [main] builds the
    dictionary with the single key A; after the detector has run the
    dictionary has a second key, B. *)
Lemma cycle_detector_adds_keys :
  let tree := build_tree {[("A", "B")]} in
  keys tree = ["A"] ∧
  find_hierarchy_cycles tree = Ok ([], [("A", ["B"]); ("B", [])]) ∧
  keys [("A", ["B"]); ("B", @nil string)] = ["A"; "B"].
Proof. split_and!; reflexivity. Qed.

(** C10, amended: the contradiction detector returns the graph as it was
    given. The cycle detector changes no entry of the dictionary and no set
    of children, but it is not read-only: the dictionary it leaves is the one
    it received followed by one entry with an empty list for every node that
    is listed as a child without being a key. *)
Theorem detectors_frame (nx : NetworkX) (d : dict (list string)) (G : DiGraph) :
  (∃ cycles extra,
     find_hierarchy_cycles d = Ok (cycles, with_empty_entries d extra) ∧
     NoDup extra ∧
     (∀ k, k ∈ extra ↔ (k ∉ keys d) ∧ ∃ u, edge_of d u k) ∧
     (∀ k l, dict_get d k = Some l →
             dict_get (with_empty_entries d extra) k = Some l) ∧
     (∀ u, successors (with_empty_entries d extra) u = successors d u)) ∧
  (∀ out G', identify_broader_issues G = Ok (out, G') → G' = G).
Proof.
  split.
  - destruct (find_hierarchy_cycles_spec d)
      as (cycles & extra & Hrun & _ & _ & _ & Hnd & Hextra).
    exists cycles, extra. split_and!; [done | done | done | |].
    + intros k l Hk. unfold with_empty_entries. by rewrite dict_get_app, Hk.
    + apply successors_with_empty_entries.
  - intros out G'. unfold identify_broader_issues.
    destruct (map_each _ _) as [dm| |]; cbn [bind]; [|done..].
    destruct (for_each _ _ _) as [pairs| |]; cbn [bind]; [|done..].
    by intros [= _ <-].
Qed.

End broader_claims.

(* ===================================================================== *)
(** * Further facts about [load_relationships]                            *)
(* ===================================================================== *)

Section loader_more.
Import Py Graph Loader.

Lemma length_split sep s : length (split sep s) = S (count_char sep s).
Proof.
  induction s as [|c s IH]; [done|]. cbn [split count_char].
  destruct (Ascii.eqb c sep); cbn.
  - by rewrite IH.
  - destruct (split sep s) as [|w ws]; [done|]. cbn in *. lia.
Qed.

Lemma classify_reflexives fields st :
  5 ≤ length fields →
  reflexives (classify fields st) =
    if decide (nth 0 fields EmptyString = nth 4 fields EmptyString)
    then {[(nth 0 fields EmptyString, nth 3 fields EmptyString)]} ∪ reflexives st
    else reflexives st.
Proof.
  intros Hlen. rewrite (classify_long _ st Hlen). cbv zeta.
  repeat case_decide; reflexivity.
Qed.

Lemma classify_rel_kinds fields st :
  5 ≤ length fields →
  rel_kinds (classify fields st) = {[nth 3 fields EmptyString]} ∪ rel_kinds st.
Proof.
  intros Hlen. rewrite (classify_long _ st Hlen). cbv zeta.
  repeat case_decide; reflexivity.
Qed.

Lemma classify_repeats_unchanged fields st :
  5 ≤ length fields →
  nth 0 fields EmptyString = nth 4 fields EmptyString ∨
  (nth 3 fields EmptyString ≠ "CHD" ∧ nth 3 fields EmptyString ≠ "PAR" ∧
   nth 3 fields EmptyString ≠ "RB" ∧ nth 3 fields EmptyString ≠ "RN") →
  repeats (classify fields st) = repeats st.
Proof.
  intros Hlen H. rewrite (classify_long _ st Hlen). cbv zeta.
  repeat case_decide; try reflexivity; exfalso; tauto.
Qed.

(** X1: a line is processed exactly when its stripped text holds at least four
    separators: with fewer, no accumulator changes; with four or more, the
    fourth field is recorded as a relation type. *)
Theorem line_skipped_iff_few_separators (line : string) (st : load_state) :
  length (record_of line) = S (count_char "|" (strip line)) ∧
  (count_char "|" (strip line) < 4 → load_line st line = st) ∧
  (4 ≤ count_char "|" (strip line) →
     nth 3 (record_of line) EmptyString ∈ rel_kinds (load_line st line)).
Proof.
  assert (length (record_of line) = S (count_char "|" (strip line))) as Hlen
    by apply length_split.
  split_and!; [done | |].
  - intros Hlt. apply classify_short. lia.
  - intros Hge. unfold load_line.
    rewrite classify_rel_kinds by lia.
    apply elem_of_union. left. by apply elem_of_singleton.
Qed.

Lemma incr_lookup c (e0 e : string * string) :
  incr c e0 !! e = if decide (e = e0) then Some (count c e + 1) else c !! e.
Proof.
  unfold incr. case_decide as He.
  - subst. by rewrite lookup_insert_eq.
  - by rewrite lookup_insert_ne.
Qed.

(** One step of the loop, seen from one entry of the counter. *)
Lemma load_line_repeats st line e :
  repeats (load_line st line) !! e =
    if decide (counted_under e line) then Some (count (repeats st) e + 1)
    else repeats st !! e.
Proof.
  unfold load_line.
  destruct (decide (length (record_of line) < 5)) as [Hs|Hl].
  { rewrite (classify_short _ _ Hs). rewrite decide_False; [done|].
    unfold counted_under. cbv zeta. lia. }
  assert (5 ≤ length (record_of line)) as Hlen by lia.
  destruct (decide (nth 0 (record_of line) EmptyString
                    = nth 4 (record_of line) EmptyString)) as [Heq|Hne].
  { rewrite classify_repeats_unchanged by tauto.
    rewrite decide_False; [done|]. unfold counted_under. cbv zeta. tauto. }
  destruct (decide (nth 3 (record_of line) EmptyString = "CHD")) as [Hc|Hc].
  { rewrite classify_CHD by done. cbv zeta. cbn [repeats]. rewrite incr_lookup.
    apply decide_ext. unfold counted_under. cbv zeta. rewrite Hc.
    split; [intros ->; split_and!; [done..|]; right; split; [by left | done]|].
    intros (_ & _ & [[[[=]|[=]] _]|[_ ?]]). done. }
  destruct (decide (nth 3 (record_of line) EmptyString = "PAR")) as [Hp|Hp].
  { rewrite classify_PAR by done. cbv zeta. cbn [repeats]. rewrite incr_lookup.
    apply decide_ext. unfold counted_under. cbv zeta. rewrite Hp.
    split; [intros ->; split_and!; [done..|]; left; split; [by left | done]|].
    intros (_ & _ & [[_ ?]|[[[=]|[=]] _]]). done. }
  destruct (decide (nth 3 (record_of line) EmptyString = "RB")) as [Hb|Hb].
  { rewrite classify_RB by done. cbv zeta. cbn [repeats]. rewrite incr_lookup.
    apply decide_ext. unfold counted_under. cbv zeta. rewrite Hb.
    split; [intros ->; split_and!; [done..|]; left; split; [by right | done]|].
    intros (_ & _ & [[_ ?]|[[[=]|[=]] _]]). done. }
  destruct (decide (nth 3 (record_of line) EmptyString = "RN")) as [Hn|Hn].
  { rewrite classify_RN by done. cbv zeta. cbn [repeats]. rewrite incr_lookup.
    apply decide_ext. unfold counted_under. cbv zeta. rewrite Hn.
    split; [intros ->; split_and!; [done..|]; right; split; [by right | done]|].
    intros (_ & _ & [[[[=]|[=]] _]|[_ ?]]). done. }
  rewrite classify_repeats_unchanged by tauto.
  rewrite decide_False; [done|]. unfold counted_under. cbv zeta. tauto.
Qed.

Lemma load_lines_repeats lines : ∀ st e,
  repeats (load_lines lines st) !! e =
    match length (filter (counted_under e) lines) with
    | 0 => repeats st !! e
    | S n => Some (count (repeats st) e + S n)
    end.
Proof.
  induction lines as [|line lines IH]; intros st e; [done|].
  change (load_lines (line :: lines) st) with (load_lines lines (load_line st line)).
  rewrite IH, filter_cons. unfold count. rewrite load_line_repeats.
  case_decide as Hc; cbn [length].
  - destruct (length (filter _ lines)); cbn; f_equal; unfold count; lia.
  - done.
Qed.

Lemma load_lines_reflexives lines : ∀ st a r,
  (a, r) ∈ reflexives (load_lines lines st) ↔
  (a, r) ∈ reflexives st ∨ relates lines r a a.
Proof.
  induction lines as [|line lines IH]; intros st a r.
  - cbn. split; [by left|]. intros [?|(l & Hl & _)]; [done|].
    by apply elem_of_nil in Hl.
  - change (load_lines (line :: lines) st)
      with (load_lines lines (classify (record_of line) st)).
    rewrite IH, relates_cons. clear IH.
    destruct (decide (length (record_of line) < 5)) as [Hs|Hl].
    { rewrite (classify_short _ _ Hs). split; [tauto|].
      intros [?|[?|?]]; try tauto; lia. }
    rewrite classify_reflexives by lia.
    case_decide as Heq; rewrite ?elem_of_union, ?elem_of_singleton.
    + split.
      * intros [[[= -> ->]|?]|?]; [|tauto..]. right. left.
        split_and!; [lia | done | done | done].
      * intros [?|[(_ & <- & <- & _)|?]]; [tauto | by left; left | tauto].
    + split; [tauto|]. intros [?|[(_ & H0 & _ & H4)|?]]; [tauto | congruence | tauto].
Qed.

Lemma load_lines_rel_kinds lines : ∀ st r,
  r ∈ rel_kinds (load_lines lines st) ↔
  r ∈ rel_kinds st ∨ ∃ src tgt, relates lines r src tgt.
Proof.
  induction lines as [|line lines IH]; intros st r.
  - cbn. split; [by left|]. intros [?|(? & ? & l & Hl & _)]; [done|].
    by apply elem_of_nil in Hl.
  - change (load_lines (line :: lines) st)
      with (load_lines lines (classify (record_of line) st)).
    rewrite IH. clear IH.
    assert ((∃ src tgt, relates (line :: lines) r src tgt) ↔
            (5 ≤ length (record_of line) ∧ nth 3 (record_of line) EmptyString = r) ∨
            ∃ src tgt, relates lines r src tgt) as ->.
    { split.
      - intros (s & t & [H|H]%relates_cons); [left; tauto | right; eauto].
      - intros [[H1 H2]|(s & t & H)].
        + exists (nth 0 (record_of line) EmptyString), (nth 4 (record_of line) EmptyString).
          apply relates_cons. left. tauto.
        + exists s, t. apply relates_cons. by right. }
    destruct (decide (length (record_of line) < 5)) as [Hs|Hl].
    { rewrite (classify_short _ _ Hs). split; [tauto|].
      intros [?|[[? _]|?]]; try tauto; lia. }
    rewrite classify_rel_kinds by lia. rewrite elem_of_union, elem_of_singleton.
    split; [intros [[->|?]|?] | intros [?|[[? <-]|?]]]; try tauto.
    right. left. split; [lia | done].
Qed.

End loader_more.

Section loader_extras.
Import Py Graph Loader.

Lemma relates_counted_under lines (a b : string) :
  (∃ line, line ∈ lines ∧ counted_under (a, b) line) ↔
  a ≠ b ∧ ((relates lines "PAR" a b ∨ relates lines "CHD" b a) ∨
           (relates lines "RB" a b ∨ relates lines "RN" b a)).
Proof.
  unfold relates, counted_under. cbv zeta. split.
  - intros (line & Hin & Hlen & Hne & [[[Hr|Hr] [= -> ->]]|[[Hr|Hr] [= -> ->]]]);
      (split; [congruence|]).
    + left. left. by exists line.
    + right. left. by exists line.
    + left. right. by exists line.
    + right. right. by exists line.
  - intros [Hne [[H|H]|[H|H]]]; destruct H as (line & Hin & Hlen & H0 & H3 & H4);
      exists line; (split; [done|]); split_and!; try done; try congruence.
    + left. split; [by left | congruence].
    + right. split; [by left | congruence].
    + left. split; [by right | congruence].
    + right. split; [by right | congruence].
Qed.

Lemma filter_length_pos {A} (P : A → Prop) `{∀ x, Decision (P x)} (l : list A) :
  0 < length (filter P l) ↔ ∃ x, x ∈ l ∧ P x.
Proof.
  split.
  - destruct (filter P l) as [|x k] eqn:E; [cbn; lia|]. intros _.
    assert (x ∈ filter P l) as Hx by (rewrite E; left).
    apply list_elem_of_filter in Hx as [? ?]. eauto.
  - intros (x & Hx & HP).
    assert (x ∈ filter P l) as Hin by (by apply list_elem_of_filter).
    destruct (filter P l); [by apply elem_of_nil in Hin | cbn; lia].
Qed.

(** X3: the counter is keyed by the normalised edge alone, not by the graph: the
    entry of an edge counts every line that normalises to it, hierarchy and
    broader-than lines together, and the keys of the counter are exactly
    the edges of the two graphs. *)
Theorem counter_counts_both_families (lines : list string) (a b : string) :
  let st := load_lines lines empty_state in
  count (repeats st) (a, b) = length (filter (counted_under (a, b)) lines) ∧
  (is_Some (repeats st !! (a, b)) ↔
     (a, b) ∈ child_relations st ∪ broader_relations st) ∧
  (is_Some (repeats st !! (a, b)) ↔ 1 ≤ count (repeats st) (a, b)).
Proof.
  cbv zeta. pose proof (load_lines_repeats lines empty_state (a, b)) as Hl.
  unfold count. rewrite Hl.
  rewrite elem_of_union, load_lines_child, load_lines_broader.
  cbn [child_relations broader_relations repeats empty_state].
  rewrite !elem_of_empty, lookup_empty.
  pose proof (filter_length_pos (counted_under (a, b)) lines) as Hpos.
  rewrite relates_counted_under in Hpos.
  destruct (length (filter (counted_under (a, b)) lines)) as [|n]; cbn.
  - split_and!; [done | |].
    + split; [by intros [? [=]]|]. intros H. exfalso.
      assert (0 < 0); [|lia]. apply Hpos. tauto.
    + split; [by intros [? [=]] | lia].
  - split_and!; [done | |].
    + split; [|by eauto]. intros _.
      destruct Hpos as [Hpos _]. destruct Hpos as [? ?]; [lia|]. tauto.
    + split; [lia | by eauto].
Qed.

(** X4: the reflexive links are exactly the (source, code) pairs of the lines
    whose source equals their target, and the observed relation types are
    exactly the codes of the lines with at least five fields. *)
Theorem reflexives_and_types_observed (lines : list string) :
  let st := load_lines lines empty_state in
  (∀ a r, (a, r) ∈ reflexives st ↔ relates lines r a a) ∧
  (∀ r, r ∈ rel_kinds st ↔ ∃ src tgt, relates lines r src tgt).
Proof.
  cbv zeta. split.
  - intros a r. rewrite load_lines_reflexives. cbn. rewrite elem_of_empty. tauto.
  - intros r. rewrite load_lines_rel_kinds. cbn. rewrite elem_of_empty. tauto.
Qed.

Lemma relates_perm lines lines' rel src tgt :
  lines ≡ₚ lines' → relates lines rel src tgt ↔ relates lines' rel src tgt.
Proof.
  intros Hp. unfold relates.
  split; intros (line & Hin & H); exists line; (split; [|done]).
  - by rewrite <- Hp.
  - by rewrite Hp.
Qed.

(** X5: the order of the lines of the file does not matter: two files with the
    same lines in a different order load to the same five accumulators. *)
Theorem load_order_irrelevant (lines lines' : list string) :
  lines ≡ₚ lines' →
  load_lines lines empty_state = load_lines lines' empty_state.
Proof.
  intros Hp.
  assert (∀ s1 s2, child_relations s1 = child_relations s2 →
                   broader_relations s1 = broader_relations s2 →
                   repeats s1 = repeats s2 → reflexives s1 = reflexives s2 →
                   rel_kinds s1 = rel_kinds s2 → s1 = s2) as Hext.
  { intros [] []. cbn. by intros -> -> -> -> ->. }
  apply Hext.
  - apply set_eq. intros [a b]. rewrite !load_lines_child.
    by rewrite (relates_perm _ _ _ _ _ Hp), (relates_perm _ _ "CHD" _ _ Hp).
  - apply set_eq. intros [a b]. rewrite !load_lines_broader.
    by rewrite (relates_perm _ _ _ _ _ Hp), (relates_perm _ _ "RN" _ _ Hp).
  - apply map_eq. intros e. rewrite !load_lines_repeats. by rewrite Hp.
  - apply set_eq. intros [a r]. rewrite !load_lines_reflexives.
    by rewrite (relates_perm _ _ _ _ _ Hp).
  - apply set_eq. intros r. rewrite !load_lines_rel_kinds.
    split; (intros [?|(s & t & H)]; [by left|]; right; exists s, t);
      by apply (relates_perm _ _ _ _ _ Hp).
Qed.

Lemma load_order_irrelevant_witness :
  load_lines ["C1|a|b|PAR|C2|"; "C2|a|b|RB|C3|"] empty_state
  = load_lines ["C2|a|b|RB|C3|"; "C1|a|b|PAR|C2|"] empty_state.
Proof. apply load_order_irrelevant. apply perm_swap. Defined.

End loader_extras.

(* ===================================================================== *)
(** * Splitting a line into fields                                        *)
(* ===================================================================== *)

Section parse_facts.
Import Py Loader.

Lemma split_no_sep sep s : count_char sep s = 0 → split sep s = [s].
Proof.
  induction s as [|c s IH]; [done|]. cbn [count_char split].
  destruct (Ascii.eqb c sep); [done|]. cbn. intros Hs. by rewrite IH.
Qed.

Lemma append_nil_l s : EmptyString +:+ s = s.
Proof. reflexivity. Qed.

Lemma append_cons c s t : String c s +:+ t = String c (s +:+ t).
Proof. reflexivity. Qed.

Lemma split_app_sep sep x rest :
  count_char sep x = 0 → split sep (x +:+ String sep rest) = x :: split sep rest.
Proof.
  induction x as [|c x IH]; cbn [count_char].
  - intros _. rewrite append_nil_l. cbn [split]. by rewrite Ascii.eqb_refl.
  - destruct (Ascii.eqb c sep) eqn:E; [done|]. cbn [plus]. intros Hx.
    rewrite append_cons. cbn [split]. by rewrite E, IH.
Qed.

Lemma split_join sep fields :
  fields ≠ [] → Forall (λ f, count_char sep f = 0) fields →
  split sep (join (String sep EmptyString) fields) = fields.
Proof.
  induction fields as [|x [|y fields] IH]; intros Hne Hall; [done| |].
  - apply Forall_cons in Hall as [Hx _]. cbn. by apply split_no_sep.
  - apply Forall_cons in Hall as [Hx Hall].
    change (join (String sep EmptyString) (x :: y :: fields))
      with (x +:+ String sep (join (String sep EmptyString) (y :: fields))).
    rewrite split_app_sep by done. by rewrite IH.
Qed.

Lemma list_ascii_of_string_app s t :
  list_ascii_of_string (s +:+ t) = list_ascii_of_string s ++ list_ascii_of_string t.
Proof.
  induction s as [|c s IH]; [done|]. rewrite append_cons. cbn. by rewrite IH.
Qed.

Lemma lstrip_chars_all_space l : forallb isspace l = true → lstrip_chars l = [].
Proof.
  induction l as [|a l IH]; [done|]. cbn. destruct (isspace a); [done|].
  intros [=].
Qed.

Lemma lstrip_chars_snoc l c :
  isspace c = true →
  lstrip_chars (l ++ [c]) = if forallb isspace l then [] else lstrip_chars l ++ [c].
Proof.
  intros Hc. induction l as [|a l IH]; cbn.
  - by rewrite Hc.
  - destruct (isspace a); [done|]. done.
Qed.

(** Whitespace at the end of a line is dropped by [strip]. *)
Lemma strip_trailing_space s c :
  isspace c = true → strip (s +:+ String c EmptyString) = strip s.
Proof.
  intros Hc. unfold strip. rewrite list_ascii_of_string_app. cbn [list_ascii_of_string].
  rewrite lstrip_chars_snoc by done.
  destruct (forallb isspace (list_ascii_of_string s)) eqn:E.
  - by rewrite (lstrip_chars_all_space _ E).
  - rewrite rev_unit. cbn [lstrip_chars]. by rewrite Hc.
Qed.

(** X2: round trip through the line format: fields that hold no separator,
    joined by the separator and ended by a newline, are read back as they
    were, provided the joined text has no surrounding whitespace; so the loop
    body sees exactly these fields. *)
Theorem fields_round_trip (fields : list string) (st : load_state) :
  fields ≠ [] →
  Forall (λ f, count_char "|" f = 0) fields →
  strip (join "|" fields) = join "|" fields →
  record_of (join "|" fields) = fields ∧
  record_of (join "|" fields +:+ newline) = fields ∧
  load_line st (join "|" fields +:+ newline) = classify fields st.
Proof.
  intros Hne Hall Hstrip.
  assert (record_of (join "|" fields) = fields) as H1.
  { unfold record_of. rewrite Hstrip. by apply split_join. }
  assert (record_of (join "|" fields +:+ newline) = fields) as H2.
  { unfold record_of, newline. rewrite strip_trailing_space by done. apply H1. }
  split_and!; [done | done |]. unfold load_line. by rewrite H2.
Qed.

Lemma fields_round_trip_witness :
  record_of (join "|" ["C1"; "A1"; "AUI"; "CHD"; "C2"; ""])
    = ["C1"; "A1"; "AUI"; "CHD"; "C2"; ""] ∧
  record_of (join "|" ["C1"; "A1"; "AUI"; "CHD"; "C2"; ""] +:+ newline)
    = ["C1"; "A1"; "AUI"; "CHD"; "C2"; ""] ∧
  load_line empty_state (join "|" ["C1"; "A1"; "AUI"; "CHD"; "C2"; ""] +:+ newline)
    = classify ["C1"; "A1"; "AUI"; "CHD"; "C2"; ""] empty_state.
Proof.
  apply (fields_round_trip ["C1"; "A1"; "AUI"; "CHD"; "C2"; ""] empty_state).
  - done.
  - repeat constructor.
  - reflexivity.
Defined.

End parse_facts.

(* ===================================================================== *)
(** * The detectors on the graphs that [main] builds                      *)
(* ===================================================================== *)

Section pipeline_facts.
Import Py Graph Loader Cycles NX Broader Main.

Lemma edge_of_build_tree (links : gset (string * string)) u v :
  edge_of (build_tree links) u v ↔ (u, v) ∈ links.
Proof.
  rewrite edge_of_successors. unfold build_tree.
  rewrite successors_fold_tree_append. change (successors [] u) with (@nil string).
  cbn [app]. rewrite list_elem_of_fmap. split.
  - intros ([a b] & -> & [Ha Hin]%list_elem_of_filter). cbn in *. subst.
    by apply elem_of_elements.
  - intros Hin. exists (u, v). split; [done|].
    apply list_elem_of_filter. split; [done | by apply elem_of_elements].
Qed.

Lemma chain_iff (R R' : string → string → Prop) l :
  (∀ u v, R u v ↔ R' u v) → chain R l ↔ chain R' l.
Proof.
  intros H. induction l as [|x [|y l] IH]; [done..|].
  cbn [chain]. by rewrite H, IH.
Qed.

Lemma tc_iff (R R' : string → string → Prop) u v :
  (∀ u v, R u v ↔ R' u v) → tc R u v ↔ tc R' u v.
Proof.
  intros H. split; induction 1 as [? ? Hxy|? ? ? Hxy _ IH].
  - by apply tc_once, H.
  - eapply tc_l; [by apply H | done].
  - by apply tc_once, H.
  - eapply tc_l; [by apply H | done].
Qed.

Lemma rtc_iff (R R' : string → string → Prop) u v :
  (∀ u v, R u v ↔ R' u v) → rtc R u v ↔ rtc R' u v.
Proof.
  intros H. split; induction 1 as [|? ? ? Hxy _ IH]; try done.
  - eapply rtc_l; [by apply H | done].
  - eapply rtc_l; [by apply H | done].
Qed.

(** No link that was loaded is a self-loop. *)
Lemma loaded_links_irreflexive lines u :
  ((u, u) ∉ child_relations (load_lines lines empty_state)) ∧
  ((u, u) ∉ broader_relations (load_lines lines empty_state)).
Proof.
  split; intros H.
  - apply load_lines_child in H as [H|[? _]]; [by apply elem_of_empty in H | done].
  - apply load_lines_broader in H as [H|[? _]]; [by apply elem_of_empty in H | done].
Qed.

(** The contradictory pairs of the graph built from [links]. *)
Lemma contradictory_build_bt_graph (links : gset (string * string)) s t :
  contradictory (build_bt_graph links) s t ↔
  s ≠ t ∧ tc (λ a b, (a, b) ∈ links) s t ∧ tc (λ a b, (a, b) ∈ links) t s.
Proof.
  set (R := λ a b : string, (a, b) ∈ links).
  assert (∀ u v, edge_of (build_bt_graph links) u v ↔ R u v) as HE
    by (intros; apply edge_of_build_bt_graph).
  assert (∀ u v, tc R u v → u ∈ nodes (build_bt_graph links) ∧
                            v ∈ nodes (build_bt_graph links)) as Hnodes.
  { assert (∀ u v, R u v → u ∈ nodes (build_bt_graph links) ∧
                           v ∈ nodes (build_bt_graph links)) as Hstep.
    { intros u v Huv. unfold build_bt_graph.
      split; apply elem_of_nodes_add_edges_from; right; exists (u, v);
        (split; [by apply elem_of_elements | cbn; tauto]). }
    induction 1 as [u v Huv|u w v Huw _ [_ IH]]; [by apply Hstep|].
    split; [by apply (Hstep u w) | done]. }
  unfold contradictory, reachable.
  rewrite (rtc_iff _ R s t HE), (rtc_iff _ R t s HE), !rtc_tc. split.
  - intros (_ & _ & Hne & [?|Hst] & [?|Hts]); try done.
  - intros (Hne & Hst & Hts). destruct (Hnodes s t Hst). by split_and!; auto.
Qed.

(** Mutual pairs exist exactly when an irreflexive relation has a cycle. *)
Lemma no_pairs_iff_acyclic (R : string → string → Prop) (out : list contradiction) :
  (∀ u, ¬ R u u) →
  (∀ s t, (s, t) ∈ pair_of <$> out ↔ s ≠ t ∧ tc R s t ∧ tc R t s) →
  (out = [] ↔ ∀ u, ¬ tc R u u) ∧ (out ≠ [] ↔ ∃ u, tc R u u).
Proof.
  intros Hirr Hpairs.
  assert (out = [] → ∀ u, ¬ tc R u u) as H1.
  { intros -> u Hu.
    assert (∃ v, R u v ∧ rtc R v u) as (v & Huv & Hvu).
    { inversion Hu as [? ? H|? v ? H Hvu]; subst; [by exists u|].
      exists v. split; [done | by apply tc_rtc]. }
    assert (u ≠ v) as Hne by (intros <-; by apply (Hirr u)).
    assert ((u, v) ∈ pair_of <$> []) as Hin; [|by apply elem_of_nil in Hin].
    apply Hpairs. split_and!; [done | by apply tc_once |].
    apply rtc_tc in Hvu as [?|?]; [congruence | done]. }
  assert (out ≠ [] → ∃ u, tc R u u) as H2.
  { destruct out as [|c out]; [done|]. intros _.
    assert (pair_of c ∈ pair_of <$> c :: out) as Hin by (rewrite fmap_cons; left).
    destruct (pair_of c) as [s t]. apply Hpairs in Hin as (_ & Hst & Hts).
    exists s. by eapply tc_trans. }
  split; split; [done | | done |].
  - intros Hac. destruct out as [|c out]; [done|].
    destruct H2 as [u Hu]; [done|]. by destruct (Hac u).
  - intros [u Hu] ->. by apply (H1 eq_refl u).
Qed.

End pipeline_facts.

Section pipeline_extras.
Import Py Graph Loader Cycles NX Broader Main.

(** X7: on the hierarchy that [main] builds from any file, the cycle detector
    returns; each report has at least two nodes, each node linked to the next
    and the last to the first by parent-child links of the file; and there is
    no report exactly when these links have no directed cycle. *)
Theorem hierarchy_cycles_of_loaded_links (lines : list string) :
  let links := child_relations (load_lines lines empty_state) in
  ∃ cycles tree',
    find_hierarchy_cycles (build_tree links) = Ok (cycles, tree') ∧
    (∀ loop, loop ∈ cycles →
       2 ≤ length loop ∧ NoDup loop ∧
       chain (λ u v, (u, v) ∈ links) loop ∧
       ∃ a b, head loop = Some a ∧ last loop = Some b ∧ (b, a) ∈ links) ∧
    (cycles = [] ↔ ∀ u, ¬ tc (λ a b, (a, b) ∈ links) u u).
Proof.
  intros links.
  destruct (find_hierarchy_cycles_spec (build_tree links))
    as (cycles & extra & Hrun & Hcyc & _ & Hnil & _ & _).
  exists cycles, (with_empty_entries (build_tree links) extra).
  split; [done|]. rewrite Forall_forall in Hcyc.
  assert (∀ u v, edge_of (build_tree links) u v ↔ (u, v) ∈ links) as HE
    by (intros; apply edge_of_build_tree).
  split.
  - intros loop Hloop.
    destruct (Hcyc loop Hloop) as (Hnd & Hch & a & b & Hh & Hl & Hba).
    apply edge_of_build_tree in Hba.
    split_and!; [| done | | by exists a, b].
    + destruct loop as [|x [|y loop]]; [done | | cbn; lia].
      cbn in Hh, Hl. injection Hh as <-. injection Hl as <-.
      by destruct (loaded_links_irreflexive lines x) as [? _].
    + by apply (chain_iff _ _ loop HE).
  - rewrite Hnil. unfold acyclic. split; intros H u Hu; apply (H u).
    + by apply (tc_iff _ _ u u HE).
    + by apply (tc_iff _ _ u u HE) in Hu.
Qed.

(** X8: on the broader-than graph that [main] builds from any file, the
    contradiction detector returns, whatever conforming library it calls; it
    reports the ordered pair (s, t) exactly when s and t differ and the
    broader-than links of the file lead from each to the other; and it
    reports nothing exactly when these links have no directed cycle. *)
Theorem broader_conflicts_of_loaded_links (nx : NetworkX) (lines : list string) :
  nx_contract nx →
  let links := broader_relations (load_lines lines empty_state) in
  let R := λ a b : string, (a, b) ∈ links in
  ∃ out,
    identify_broader_issues (build_bt_graph links) = Ok (out, build_bt_graph links) ∧
    (∀ s t, (s, t) ∈ pair_of <$> out ↔ s ≠ t ∧ tc R s t ∧ tc R t s) ∧
    (out = [] ↔ ∀ u, ¬ tc R u u).
Proof.
  intros Hnx links R.
  destruct (identify_broader_issues_spec nx Hnx (build_bt_graph links)
              (wf_build_bt_graph links)) as (out & Hrun & _ & Hiff & _).
  assert (∀ s t, (s, t) ∈ pair_of <$> out ↔ s ≠ t ∧ tc R s t ∧ tc R t s) as Hpairs.
  { intros s t. rewrite Hiff. apply contradictory_build_bt_graph. }
  exists out. split_and!; [done | done |].
  apply (no_pairs_iff_acyclic R out); [|done].
  intros u. by destruct (loaded_links_irreflexive lines u) as [_ ?].
Qed.

Lemma broader_conflicts_of_loaded_links_witness :
  let links := broader_relations
                 (load_lines ["C1|a|b|RB|C2|"; "C1|a|b|RN|C2|"] empty_state) in
  let R := λ a b : string, (a, b) ∈ links in
  ∃ out,
    identify_broader_issues (H:=bfs_nx) (build_bt_graph links)
    = Ok (out, build_bt_graph links) ∧
    (∀ s t, (s, t) ∈ pair_of <$> out ↔ s ≠ t ∧ tc R s t ∧ tc R t s) ∧
    (out = [] ↔ ∀ u, ¬ tc R u u).
Proof.
  exact (broader_conflicts_of_loaded_links bfs_nx
           ["C1|a|b|RB|C2|"; "C1|a|b|RN|C2|"] bfs_nx_contract).
Defined.

(** X9: every witness path has at least three nodes, and the two reports about
    one unordered pair carry paths of the same length (the sum of the two
    distances, plus one). *)
Theorem witness_paths_have_equal_length (nx : NetworkX) (G : DiGraph) :
  nx_contract nx → wf_graph G →
  ∃ out, identify_broader_issues G = Ok (out, G) ∧
    ∀ c, c ∈ out →
      3 ≤ length (c_path c) ∧
      ∀ c', c' ∈ out → c_from c' = c_to c → c_to c' = c_from c →
            length (c_path c') = length (c_path c).
Proof.
  intros Hnx Hwf.
  destruct (identify_broader_issues_spec nx Hnx G Hwf) as (out & Hrun & _ & Hiff & Hw).
  exists out. split; [done|]. rewrite Forall_forall in Hw.
  assert (∀ s t p, s ≠ t → is_walk G s t p → 2 ≤ length p) as Hlen2.
  { intros s t [|x [|y p]] Hne (Hh & Hl & _); [done | | cbn; lia].
    cbn in *. congruence. }
  assert (∀ c, c ∈ out → c_from c ≠ c_to c) as Hne.
  { intros c Hc.
    assert (contradictory G (c_from c) (c_to c)) as (_ & _ & ? & _); [|done].
    apply Hiff, list_elem_of_fmap. by exists c. }
  assert (∀ c, c ∈ out → ∃ fwd back,
            length (c_path c) + 1 = length fwd + length back ∧
            is_shortest_walk G (c_from c) (c_to c) fwd ∧
            is_shortest_walk G (c_to c) (c_from c) back) as Hsplit.
  { intros c Hc. destruct (Hw c Hc) as (fwd & back & Hpath & Hf & Hb).
    exists fwd, back. split; [|done]. rewrite Hpath, length_app.
    destruct Hb as [(Hbh & _) _]. destruct back; [done|].
    cbn [drop]. rewrite ?drop_0. cbn. lia. }
  intros c Hc. destruct (Hsplit c Hc) as (fwd & back & Hlen & Hf & Hb). split.
  - pose proof (Hlen2 _ _ fwd (Hne c Hc) (proj1 Hf)).
    assert (c_to c ≠ c_from c) as Hne' by (intros E; by apply (Hne c Hc)).
    pose proof (Hlen2 _ _ back Hne' (proj1 Hb)). lia.
  - intros c' Hc' Hft Htf.
    destruct (Hsplit c' Hc') as (fwd' & back' & Hlen' & Hf' & Hb').
    rewrite Hft, Htf in Hf', Hb'.
    destruct Hf as [Hf1 Hf2], Hb as [Hb1 Hb2], Hf' as [Hf1' Hf2'], Hb' as [Hb1' Hb2'].
    pose proof (Hf2 _ Hb1'). pose proof (Hb2' _ Hf1).
    pose proof (Hb2 _ Hf1'). pose proof (Hf2' _ Hb1). lia.
Qed.

Lemma witness_paths_have_equal_length_witness :
  ∃ out, identify_broader_issues (H:=bfs_nx) three_cycle = Ok (out, three_cycle) ∧
    ∀ c, c ∈ out →
      3 ≤ length (c_path c) ∧
      ∀ c', c' ∈ out → c_from c' = c_to c → c_to c' = c_from c →
            length (c_path c') = length (c_path c).
Proof.
  apply (witness_paths_have_equal_length bfs_nx three_cycle).
  - exact bfs_nx_contract.
  - apply wf_graph_add_edges_from, wf_graph_empty.
Defined.

End pipeline_extras.

(* ===================================================================== *)
(** * The two structures that [main] builds                               *)
(* ===================================================================== *)

Section built_structures.
Import Py Graph Cycles NX Main.

Lemma keys_set_absent {V} (d : dict V) k v :
  k ∉ keys d → keys (dict_set d k v) = keys d ++ [k].
Proof.
  unfold keys. induction d as [|[k0 v0] d IH]; cbn; [done|].
  intros Hk. apply not_elem_of_cons in Hk as [Hne Hk].
  rewrite decide_False by done. cbn. f_equal. by apply IH.
Qed.

(** [tree[parent].append(child)] adds the key [parent] at the end when it
    is new and leaves the keys alone otherwise. *)
Lemma keys_tree_append tree (e : string * string) :
  keys (tree_append tree e) =
    if decide (e.1 ∈ keys tree) then keys tree else keys tree ++ [e.1].
Proof.
  unfold tree_append, defaultdict_getitem.
  destruct (dict_get tree e.1) as [children|] eqn:E.
  - assert (e.1 ∈ keys tree) as Hin by (by eapply dict_get_Some_key).
    rewrite decide_True by done. by apply keys_set_present.
  - apply dict_get_None in E. rewrite decide_False by done.
    rewrite keys_set_present; [apply keys_app|].
    rewrite keys_app. apply elem_of_app. right. by left.
Qed.

Lemma keys_fold_tree_append (l : list (string * string)) tree :
  NoDup (keys tree) →
  NoDup (keys (fold_left tree_append l tree)) ∧
  ∀ k, k ∈ keys (fold_left tree_append l tree) ↔ k ∈ keys tree ∨ k ∈ l.*1.
Proof.
  revert tree. induction l as [|e l IH]; intros tree Hnd.
  - cbn. split; [done|]. intros k. rewrite elem_of_nil. tauto.
  - change (fold_left tree_append (e :: l) tree)
      with (fold_left tree_append l (tree_append tree e)).
    assert (NoDup (keys (tree_append tree e)) ∧
            ∀ k, k ∈ keys (tree_append tree e) ↔ k ∈ keys tree ∨ k = e.1) as [Hnd' Hk].
    { rewrite keys_tree_append. case_decide as Hin.
      - split; [done|]. intros k. split; [by left | by intros [? | ->]].
      - split.
        + apply NoDup_app. split_and!; [done | | apply NoDup_singleton].
          by intros k Hk ->%list_elem_of_singleton.
        + intros k. rewrite elem_of_app, list_elem_of_singleton. tauto. }
    destruct (IH _ Hnd') as [H1 H2]. split; [done|].
    intros k. rewrite H2, Hk, fmap_cons, elem_of_cons. tauto.
Qed.

(** X6: what [main] hands to the detectors. The hierarchy dictionary lists v
    under u exactly when (u, v) is a link, each child once, and has one key
    per node that is a parent: a node that is only a child has no key, and it
    is the cycle detector that, reading its entry, adds one; after the
    detector has run the dictionary has one key per node of the hierarchy.
    The broader-than graph has every end of a link as a node and the links
    as its edges. *)
Theorem structures_built_by_main (links : gset (string * string)) :
  let tree := build_tree links in
  let G := build_bt_graph links in
  (∀ u v, v ∈ successors tree u ↔ (u, v) ∈ links) ∧
  (∀ u, NoDup (successors tree u)) ∧
  NoDup (keys tree) ∧
  (∀ u, u ∈ keys tree ↔ ∃ v, (u, v) ∈ links) ∧
  (∃ cycles tree',
     find_hierarchy_cycles tree = Ok (cycles, tree') ∧
     NoDup (keys tree') ∧
     ∀ u, u ∈ keys tree' ↔ ∃ v, (u, v) ∈ links ∨ (v, u) ∈ links) ∧
  (∀ u v, v ∈ successors G u ↔ (u, v) ∈ links) ∧
  wf_graph G ∧
  (∀ u, u ∈ nodes G ↔ ∃ v, (u, v) ∈ links ∨ (v, u) ∈ links).
Proof.
  intros tree G.
  assert (∀ u v, v ∈ successors tree u ↔ (u, v) ∈ links) as Hsucc.
  { intros u v. rewrite <- edge_of_successors. apply edge_of_build_tree. }
  destruct (keys_fold_tree_append (elements links) [] (NoDup_nil_2)) as [Hnd Hkeys].
  fold (build_tree links) in Hnd, Hkeys. fold tree in Hnd, Hkeys.
  assert (∀ u, u ∈ keys tree ↔ ∃ v, (u, v) ∈ links) as Hk.
  { intros u. rewrite Hkeys. cbn. rewrite elem_of_nil, list_elem_of_fmap. split.
    - intros [?|([a b] & -> & Hin%elem_of_elements)]; [done|]. by exists b.
    - intros [v Hv]. right. exists (u, v). split; [done | by apply elem_of_elements]. }
  split_and!; [done | | done | done | | | |].
  - intros u. unfold tree, build_tree. rewrite successors_fold_tree_append.
    change (successors [] u) with (@nil string). cbn [app].
    apply NoDup_fmap_2_strong; [|apply NoDup_filter, NoDup_elements].
    intros [a b] [a' b'] [Ha _]%list_elem_of_filter [Ha' _]%list_elem_of_filter Hb.
    cbn in *. congruence.
  - destruct (find_hierarchy_cycles_spec tree)
      as (cycles & extra & Hrun & _ & _ & _ & Hnde & Hextra).
    exists cycles, (with_empty_entries tree extra). split; [done|].
    rewrite keys_with_empty_entries. split.
    + apply NoDup_app. split_and!; [done | | done].
      intros k Hin Hex. apply Hextra in Hex as [Hn _]. done.
    + intros u. rewrite elem_of_app, Hk, Hextra. split.
      * intros [[v Hv]|[_ [v Hv]]]; [exists v; by left|].
        exists v. right. by apply edge_of_build_tree.
      * intros [v [Hv|Hv]]; [left; by exists v|].
        destruct (decide (u ∈ keys tree)) as [Hin|Hout].
        -- left. by apply Hk.
        -- right. split; [done|]. exists v. by apply edge_of_build_tree.
  - intros u v. rewrite <- edge_of_successors. apply edge_of_build_bt_graph.
  - apply wf_build_bt_graph.
  - intros u. unfold G, build_bt_graph. rewrite elem_of_nodes_add_edges_from.
    split.
    + intros [Hin|([a b] & Hin%elem_of_elements & [-> | ->])].
      * by apply elem_of_nil in Hin.
      * exists b. by left.
      * exists a. by right.
    + intros [v [Hv|Hv]]; right.
      * exists (u, v). split; [by apply elem_of_elements | by left].
      * exists (v, u). split; [by apply elem_of_elements | by right].
Qed.

End built_structures.

(* ===================================================================== *)
(** * The files written by [write_reports]                                *)
(* ===================================================================== *)

Section report_facts.
Import Py Loader Broader Reports.
Context {F : Type}.
Implicit Types (files : list (csv_file F)) (f : csv_file F).

Lemma report_cons_eq f files ts name :
  file_name f = name +:+ "_" +:+ ts +:+ ".csv" → report (f :: files) ts name = Some f.
Proof. intros E. unfold report. by rewrite filter_cons_True. Qed.

Lemma report_cons_ne f files ts name :
  file_name f ≠ name +:+ "_" +:+ ts +:+ ".csv" →
  report (f :: files) ts name = report files ts name.
Proof. intros E. unfold report. by rewrite filter_cons_False. Qed.

(** Two names that differ in their first character. *)
Lemma first_char_differs c1 c2 s1 s2 t1 t2 :
  c1 ≠ c2 → String c1 s1 +:+ t1 ≠ String c2 s2 +:+ t2.
Proof. intros Hc [= E _]. done. Qed.

Ltac distinct_names :=
  cbn [file_name write_csv]; apply first_char_differs; discriminate.

Ltac find_report :=
  repeat first [ rewrite report_cons_eq by reflexivity
               | rewrite report_cons_ne by distinct_names ];
  reflexivity.

(** Which report is found under which name, for every combination of empty
    and non-empty findings. *)
Lemma report_of_write_reports cycles contradictions repeated reflexive_links
    (stats : list (string * cell F)) ts :
  let files := write_reports cycles contradictions repeated reflexive_links stats ts in
  report files ts "parent_child_cycles" =
    match cycles with
    | [] => None
    | _ => Some (write_csv ts "parent_child_cycles" ["ID"; "Cycle"] (cycle_rows cycles))
    end ∧
  report files ts "broader_than_conflicts" =
    match contradictions with
    | [] => None
    | _ => Some (write_csv ts "broader_than_conflicts" ["ID"; "Source"; "Target"; "Path"]
                           (contradiction_rows contradictions))
    end ∧
  report files ts "duplicate_edges" =
    (if decide (repeated = ∅) then None
     else Some (write_csv ts "duplicate_edges" ["Source"; "Target"; "Occurrences"]
                          (duplicate_rows repeated))) ∧
  report files ts "self_links" =
    (if decide (reflexive_links = ∅) then None
     else Some (write_csv ts "self_links" ["CUI"; "Relation"]
                          (self_link_rows reflexive_links))) ∧
  report files ts "run_statistics" =
    Some (write_csv ts "run_statistics" ["Metric"; "Value"] (stat_rows stats)).
Proof.
  cbv zeta. unfold write_reports.
  destruct cycles as [|c cycles], contradictions as [|k contradictions],
    (decide (repeated = ∅)), (decide (reflexive_links = ∅));
    cbn [app]; split_and!; find_report.
Qed.

Lemma names_of_write_reports cycles contradictions repeated reflexive_links
    (stats : list (string * cell F)) ts :
  let files := write_reports cycles contradictions repeated reflexive_links stats ts in
  NoDup (file_name <$> files) ∧
  last files = Some (write_csv ts "run_statistics" ["Metric"; "Value"] (stat_rows stats)).
Proof.
  cbv zeta. unfold write_reports.
  destruct cycles as [|c cycles], contradictions as [|k contradictions],
    (decide (repeated = ∅)), (decide (reflexive_links = ∅));
    cbn [app fmap list_fmap]; (split; [|reflexivity]).
  all: repeat (apply NoDup_cons; split;
               [rewrite ?elem_of_cons, elem_of_nil; intros Hin;
                repeat (destruct Hin as [Hin|Hin]); try done;
                revert Hin; distinct_names|]).
  all: apply NoDup_nil_2.
Qed.

(** The rows of the duplicate report: one row per counter entry above 1. *)
Lemma elem_of_duplicate_rows (repeated : gmap (string * string) nat) a b n :
  [Str a; Str b; Int n] ∈ duplicate_rows (F:=F) repeated ↔
  repeated !! (a, b) = Some n ∧ 2 ≤ n.
Proof.
  unfold duplicate_rows. rewrite list_elem_of_fmap. split.
  - intros ([[a' b'] n'] & [= -> -> ->] & [Hn Hin]%list_elem_of_filter).
    cbn in *. apply elem_of_map_to_list in Hin. split; [done | lia].
  - intros [Hl Hn]. exists ((a, b), n). split; [done|].
    apply list_elem_of_filter. split; [cbn; lia | by apply elem_of_map_to_list].
Qed.

Lemma NoDup_duplicate_rows (repeated : gmap (string * string) nat) :
  NoDup (duplicate_rows (F:=F) repeated).
Proof.
  unfold duplicate_rows. apply NoDup_fmap_2_strong.
  - intros [[a1 b1] n1] [[a2 b2] n2] _ _ [= -> -> ->]. done.
  - apply NoDup_filter, NoDup_map_to_list.
Qed.

End report_facts.

Section report_extras.
Import Py Loader Broader Reports.
Context {F : Type}.

Lemma no_duplicate_rows_iff (repeated : gmap (string * string) nat) :
  length (duplicate_rows (F:=F) repeated) = 0 ↔
  ∀ e n, repeated !! e = Some n → n ≤ 1.
Proof.
  split.
  - intros Hlen [a b] n Hl. destruct (decide (n ≤ 1)) as [|Hn]; [done|]. exfalso.
    assert ([Str a; Str b; Int n] ∈ duplicate_rows (F:=F) repeated) as Hin
      by (apply elem_of_duplicate_rows; split; [done | lia]).
    destruct (duplicate_rows repeated); [by apply elem_of_nil in Hin | done].
  - intros Hall. unfold duplicate_rows. rewrite length_fmap.
    destruct (filter _ _) as [|[e n] l] eqn:E; [done|]. exfalso.
    assert ((e, n) ∈ filter (λ kv : string * string * nat, 1 < kv.2)
                            (map_to_list repeated)) as Hin by (rewrite E; left).
    apply list_elem_of_filter in Hin as [Hn Hin]. cbn in Hn.
    apply elem_of_map_to_list in Hin. specialize (Hall e n Hin). lia.
Qed.

(** X10: no report overwrites another: the files written have pairwise distinct
    names, and the statistics are written last, whatever was found. A finding
    report is written exactly when its input is non-empty, with one data row
    per finding; the duplicate report is written as soon as the counter has
    an entry, so it holds only its header when no entry is above 1. *)
Theorem reports_written (cycles : list (list string))
    (contradictions : list contradiction) (repeated : gmap (string * string) nat)
    (reflexive_links : gset (string * string)) (stats : list (string * cell F))
    (ts : string) :
  let files := write_reports cycles contradictions repeated reflexive_links stats ts in
  NoDup (file_name <$> files) ∧
  last files = Some (write_csv ts "run_statistics" ["Metric"; "Value"] (stat_rows stats)) ∧
  (is_Some (report files ts "parent_child_cycles") ↔ cycles ≠ []) ∧
  (is_Some (report files ts "broader_than_conflicts") ↔ contradictions ≠ []) ∧
  (is_Some (report files ts "duplicate_edges") ↔ repeated ≠ ∅) ∧
  (is_Some (report files ts "self_links") ↔ reflexive_links ≠ ∅) ∧
  row_count files ts "parent_child_cycles" = length cycles ∧
  row_count files ts "broader_than_conflicts" = length contradictions ∧
  row_count files ts "self_links" = size reflexive_links ∧
  row_count files ts "run_statistics" = length stats ∧
  (row_count files ts "duplicate_edges" = 0 ↔ ∀ e n, repeated !! e = Some n → n ≤ 1).
Proof.
  intros files.
  destruct (names_of_write_reports cycles contradictions repeated reflexive_links
              stats ts) as [Hnd Hlast].
  destruct (report_of_write_reports cycles contradictions repeated reflexive_links
              stats ts) as (Hc & Hk & Hd & Hs & Hr).
  fold files in Hnd, Hlast, Hc, Hk, Hd, Hs, Hr. unfold row_count.
  rewrite Hc, Hk, Hd, Hs, Hr.
  split_and!; [done | done | | | | | | | | |].
  - destruct cycles; split; (done || by intros [? [=]] || by eauto).
  - destruct contradictions; split; (done || by intros [? [=]] || by eauto).
  - destruct (decide (repeated = ∅)) as [He|He].
    + split; [intros Hn; by apply is_Some_None in Hn | intros Hne; by destruct Hne].
    + split; [done | by eauto].
  - destruct (decide (reflexive_links = ∅)) as [He|He].
    + split; [intros Hn; by apply is_Some_None in Hn | intros Hne; by destruct Hne].
    + split; [done | by eauto].
  - destruct cycles; [done|]. cbn [from_option rows write_csv].
    unfold cycle_rows. by rewrite length_imap.
  - destruct contradictions; [done|]. cbn [from_option rows write_csv].
    unfold contradiction_rows. by rewrite length_imap.
  - destruct (decide (reflexive_links = ∅)) as [He|He];
      cbn [from_option rows write_csv].
    + subst. by rewrite size_empty.
    + unfold self_link_rows. by rewrite length_fmap.
  - cbn [from_option rows write_csv]. unfold stat_rows. by rewrite length_fmap.
  - destruct (decide (repeated = ∅)) as [He|He]; cbn [from_option rows write_csv].
    + subst. split; [|done]. intros _ e n Hl. by rewrite lookup_empty in Hl.
    + apply no_duplicate_rows_iff.
Qed.

(** X11: the rows of the duplicate report after a file is loaded: the edge (a, b)
    has a row exactly when at least two lines are counted under it, and the
    row shows how many; no edge has two rows. *)
Theorem duplicate_rows_of_loaded_lines (lines : list string) (a b : string) (n : nat) :
  let repeated := repeats (load_lines lines empty_state) in
  ([Str a; Str b; Int n] ∈ duplicate_rows (F:=F) repeated ↔
     n = length (filter (counted_under (a, b)) lines) ∧ 2 ≤ n) ∧
  NoDup (duplicate_rows (F:=F) repeated) ∧
  (∀ row, row ∈ duplicate_rows (F:=F) repeated →
     ∃ a' b' n', row = [Str a'; Str b'; Int n'] ∧ repeated !! (a', b') = Some n').
Proof.
  intros repeated. split_and!.
  - rewrite elem_of_duplicate_rows. unfold repeated.
    rewrite load_lines_repeats. cbn [repeats empty_state]. unfold count.
    rewrite lookup_empty. cbn [default].
    destruct (length (filter (counted_under (a, b)) lines)) as [|m].
    + split; [by intros [[=] _] | intros [-> ?]; lia].
    + split; [intros [[= <-] ?]; split; [done | lia] | intros [-> ?]; split; [f_equal; lia | done]].
  - apply NoDup_duplicate_rows.
  - intros row. unfold duplicate_rows. rewrite list_elem_of_fmap.
    intros ([[a' b'] n'] & -> & [_ Hin]%list_elem_of_filter).
    exists a', b', n'. split; [done | by apply elem_of_map_to_list].
Qed.

End report_extras.

(* ===================================================================== *)
(** * [main]: from the input file to the reports                          *)
(* ===================================================================== *)

Section entry_facts.
Import Py Graph Loader Cycles NX Broader Main Reports Entry.
Context (C : Clock) (nx : NetworkX).

(** A run of [main] on a text file: both detectors return, and the reports
    are written from their findings. *)
Lemma main_run fs input check ts lines :
  fs input = TextFile lines →
  check = ParentChild ∨ nx_contract nx →
  let st := load_lines lines empty_state in
  ∃ cycles out,
    main fs input check ts =
      Ok (write_reports cycles out (repeats st) (reflexives st)
            (initial_summary st ++
             match check with
             | BroaderThan => []
             | _ => [("Parent-Child Cycles Found", Int (length cycles));
                     ("Cycle Detection Time (s)",
                      Float (elapsed t_cycles_begin t_cycles_end))]
             end ++
             match check with
             | ParentChild => []
             | _ => [("Broader-Than Violations Found", Int (length out));
                     ("Broader Analysis Time (s)",
                      Float (elapsed t_broader_begin t_broader_end))]
             end ++
             [("Total Run Time (s)", Float (elapsed t_start t_finish))]) ts) ∧
    (cycles ≠ [] ↔
       check ≠ BroaderThan ∧ ∃ u, tc (λ a b, (a, b) ∈ child_relations st) u u) ∧
    (out ≠ [] ↔
       check ≠ ParentChild ∧ ∃ u, tc (λ a b, (a, b) ∈ broader_relations st) u u).
Proof.
  intros Hfs Hnx st.
  assert (∃ cycles,
            parent_child_check check st =
              Ok (cycles,
                  match check with
                  | BroaderThan => []
                  | _ => [("Parent-Child Cycles Found", Int (length cycles));
                          ("Cycle Detection Time (s)",
                           Float (elapsed t_cycles_begin t_cycles_end))]
                  end) ∧
            (cycles ≠ [] ↔
               check ≠ BroaderThan ∧
               ∃ u, tc (λ a b, (a, b) ∈ child_relations st) u u))
    as (cycles & Hpc & Hcyc).
  { destruct (find_hierarchy_cycles_spec (build_tree (child_relations st)))
      as (cycles & extra & Hrun & Hall & _ & Hnil & _ & _).
    assert (∀ u v, edge_of (build_tree (child_relations st)) u v ↔
                   (u, v) ∈ child_relations st) as HE
      by (intros; apply edge_of_build_tree).
    assert (cycles ≠ [] ↔ ∃ u, tc (λ a b, (a, b) ∈ child_relations st) u u) as Hne.
    { split.
      - destruct cycles as [|loop cycles]; [done|]. intros _.
        apply Forall_cons in Hall as [Hloop _].
        destruct (is_cycle_tc _ loop Hloop) as [a Ha]. exists a.
        by apply (tc_iff _ _ a a HE) in Ha.
      - intros [u Hu] Hn. apply Hnil in Hn. apply (Hn u).
        by apply (tc_iff _ _ u u HE). }
    unfold parent_child_check. destruct check.
    - exists cycles. rewrite Hrun. cbn [bind fst]. split; [done|].
      rewrite Hne. split; [by intros ? | by intros [_ ?]].
    - exists []. split; [done|]. split; [done | by intros [? _]].
    - exists cycles. rewrite Hrun. cbn [bind fst]. split; [done|].
      rewrite Hne. split; [by intros ? | by intros [_ ?]]. }
  assert (∃ out,
            broader_than_check check st =
              Ok (out,
                  match check with
                  | ParentChild => []
                  | _ => [("Broader-Than Violations Found", Int (length out));
                          ("Broader Analysis Time (s)",
                           Float (elapsed t_broader_begin t_broader_end))]
                  end) ∧
            (out ≠ [] ↔
               check ≠ ParentChild ∧
               ∃ u, tc (λ a b, (a, b) ∈ broader_relations st) u u))
    as (out & Hbt & Hout).
  { unfold broader_than_check.
    assert (check = ParentChild ∨ check ≠ ParentChild) as [->|Hmode]
      by (destruct check; (by left) || (by right)).
    { exists []. split; [done|]. split; [done | by intros [? _]]. }
    destruct Hnx as [?|Hnx]; [done|].
    destruct (identify_broader_issues_spec nx Hnx (build_bt_graph (broader_relations st))
                (wf_build_bt_graph _)) as (out & Hrun & _ & Hiff & _).
    assert (out ≠ [] ↔ ∃ u, tc (λ a b, (a, b) ∈ broader_relations st) u u) as Hne.
    { apply (no_pairs_iff_acyclic (λ a b, (a, b) ∈ broader_relations st) out).
      - intros u. by destruct (loaded_links_irreflexive lines u) as [_ ?].
      - intros s t. rewrite Hiff. apply contradictory_build_bt_graph. }
    exists out. destruct check; [done | |]; rewrite Hrun; cbn [bind fst];
      (split; [done|]); rewrite Hne; (split; [by intros ? | by intros [_ ?]]). }
  exists cycles, out. split; [|done].
  unfold main, load_relationships. rewrite Hfs. fold st.
  rewrite Hpc. cbn [bind]. rewrite Hbt. cbn [bind fst snd]. done.
Qed.

End entry_facts.

Section loaded_nonempty.
Import Py Graph Loader.

(** The counter is non-empty exactly when some line is counted. *)
Lemma repeats_nonempty_iff lines :
  repeats (load_lines lines empty_state) ≠ ∅ ↔
  ∃ e line, line ∈ lines ∧ counted_under e line.
Proof.
  split.
  - intros (e & n & Hl)%map_choose. exists e.
    rewrite load_lines_repeats in Hl. cbn [repeats empty_state] in Hl.
    apply (filter_length_pos (counted_under e) lines).
    destruct (length (filter (counted_under e) lines)); [|lia].
    by rewrite lookup_empty in Hl.
  - intros (e & line & Hin & Hc) Hempty.
    assert (0 < length (filter (counted_under e) lines)) as Hpos
      by (apply filter_length_pos; eauto).
    pose proof (load_lines_repeats lines empty_state e) as Hl.
    rewrite Hempty, lookup_empty in Hl.
    destruct (length (filter (counted_under e) lines)); [lia | done].
Qed.

Lemma reflexives_nonempty_iff lines :
  reflexives (load_lines lines empty_state) ≠ ∅ ↔ ∃ a r, relates lines r a a.
Proof.
  split.
  - intros [[a r] Hin]%set_choose_L. exists a, r.
    apply load_lines_reflexives in Hin as [Hin|?]; [|done].
    by apply elem_of_empty in Hin.
  - intros (a & r & Hrel) Hempty.
    assert ((a, r) ∈ reflexives (load_lines lines empty_state)) as Hin
      by (apply load_lines_reflexives; by right).
    rewrite Hempty in Hin. by apply elem_of_empty in Hin.
Qed.

End loaded_nonempty.

Section entry_extras.
Import Py Graph Loader Cycles NX Broader Main Reports Entry.
Context (C : Clock) (nx : NetworkX).

Ltac lookup_stat :=
  repeat (cbn [dict_get app initial_summary];
          first [ rewrite decide_True by reflexivity
                | rewrite decide_False by discriminate ]).

(** X12: [main] ends with an exception exactly when the input cannot be read:
    [FileNotFoundError] for a missing path, [OSError] for one that cannot be
    opened, [UnicodeDecodeError] for a file that is not valid UTF-8, each
    before anything is analysed. On every file that decodes, whatever
    its lines and whatever the check selected, neither detector raises on the
    structure [main] builds for it (no failed lookup, no missing node, no
    missing path), both return, and the statistics report is written. The
    library is only required to conform when the broader-than check runs.
    (The recursion limit of the interpreter and failures while the reports
    are written are outside the model.) *)
Theorem main_fails_only_on_input (fs : filesystem) (input : string)
    (check : check_mode) (ts : string) :
  check = ParentChild ∨ nx_contract nx →
  (fs input = Missing → main fs input check ts = Raise FileNotFoundError) ∧
  (fs input = Unreadable → main fs input check ts = Raise OSError) ∧
  (fs input = Undecodable → main fs input check ts = Raise UnicodeDecodeError) ∧
  (∀ lines, fs input = TextFile lines →
     ∃ files, main fs input check ts = Ok files ∧
              is_Some (report files ts "run_statistics")) ∧
  ((∃ e, main fs input check ts = Raise e) ↔
     fs input = Missing ∨ fs input = Unreadable ∨ fs input = Undecodable) ∧
  main fs input check ts ≠ NoFuel.
Proof.
  intros Hnx.
  assert (fs input = Missing → main fs input check ts = Raise FileNotFoundError) as H1.
  { intros Hfs. unfold main, load_relationships. by rewrite Hfs. }
  assert (fs input = Unreadable → main fs input check ts = Raise OSError) as H2.
  { intros Hfs. unfold main, load_relationships. by rewrite Hfs. }
  assert (fs input = Undecodable →
          main fs input check ts = Raise UnicodeDecodeError) as H2'.
  { intros Hfs. unfold main, load_relationships. by rewrite Hfs. }
  assert (∀ lines, fs input = TextFile lines →
            ∃ files, main fs input check ts = Ok files ∧
                     is_Some (report files ts "run_statistics")) as H3.
  { intros lines Hfs.
    destruct (main_run C nx fs input check ts lines Hfs Hnx)
      as (cycles & out & Hrun & _ & _).
    eexists. split; [exact Hrun|].
    destruct (report_of_write_reports cycles out
                (repeats (load_lines lines empty_state))
                (reflexives (load_lines lines empty_state))
                (initial_summary (load_lines lines empty_state) ++
                 match check with
                 | BroaderThan => []
                 | _ => [("Parent-Child Cycles Found", Int (length cycles));
                         ("Cycle Detection Time (s)",
                          Float (elapsed t_cycles_begin t_cycles_end))]
                 end ++
                 match check with
                 | ParentChild => []
                 | _ => [("Broader-Than Violations Found", Int (length out));
                         ("Broader Analysis Time (s)",
                          Float (elapsed t_broader_begin t_broader_end))]
                 end ++
                 [("Total Run Time (s)", Float (elapsed t_start t_finish))]) ts)
      as (_ & _ & _ & _ & Hr).
    rewrite Hr. by eexists. }
  split_and!; [done | done | done | done | |].
  - split.
    + intros [e He]. destruct (fs input) as [| | |lines] eqn:Hfs;
        [by left | by right; left | by right; right |].
      destruct (H3 lines eq_refl) as (files & Hok & _). congruence.
    + intros [Hfs|[Hfs|Hfs]];
        [exists FileNotFoundError | exists OSError | exists UnicodeDecodeError]; auto.
  - destruct (fs input) as [| | |lines] eqn:Hfs.
    + rewrite H1 by done. done.
    + rewrite H2 by done. done.
    + rewrite H2' by done. done.
    + destruct (H3 lines eq_refl) as (files & Hok & _). congruence.
Qed.

(** X13: which reports a run of [main] on a text file leaves: the cycle report
    exactly when the check covers parent-child links and these links have a
    directed cycle; the conflict report exactly when the check covers
    broader-than links and these have a directed cycle; the duplicate report
    as soon as one line yields an edge; the self-link report as soon as one
    line relates a concept to itself. *)
Theorem main_reports_match_findings (fs : filesystem) (input : string)
    (check : check_mode) (ts : string) (lines : list string) :
  fs input = TextFile lines →
  check = ParentChild ∨ nx_contract nx →
  let st := load_lines lines empty_state in
  ∃ files, main fs input check ts = Ok files ∧
    (is_Some (report files ts "parent_child_cycles") ↔
       check ≠ BroaderThan ∧ ∃ u, tc (λ a b, (a, b) ∈ child_relations st) u u) ∧
    (is_Some (report files ts "broader_than_conflicts") ↔
       check ≠ ParentChild ∧ ∃ u, tc (λ a b, (a, b) ∈ broader_relations st) u u) ∧
    (is_Some (report files ts "duplicate_edges") ↔
       ∃ e line, line ∈ lines ∧ counted_under e line) ∧
    (is_Some (report files ts "self_links") ↔ ∃ a r, relates lines r a a).
Proof.
  intros Hfs Hnx st.
  destruct (main_run C nx fs input check ts lines Hfs Hnx)
    as (cycles & out & Hrun & Hcyc & Hout).
  fold st in Hrun, Hcyc, Hout.
  eexists. split; [exact Hrun|].
  match goal with
  | |- context [write_reports _ _ _ _ ?stats _] =>
      destruct (report_of_write_reports cycles out (repeats st) (reflexives st) stats ts)
        as (Hc & Hk & Hd & Hs & _)
  end.
  rewrite Hc, Hk, Hd, Hs. split_and!.
  - rewrite <- Hcyc. destruct cycles; split;
      first [done | by eauto | intros Hn; by apply is_Some_None in Hn].
  - rewrite <- Hout. destruct out; split;
      first [done | by eauto | intros Hn; by apply is_Some_None in Hn].
  - unfold st. rewrite <- repeats_nonempty_iff.
    destruct (decide (repeats (load_lines lines empty_state) = ∅)) as [He|He].
    + split; [intros Hn; by apply is_Some_None in Hn | intros Hne; by destruct Hne].
    + split; [done | by eauto].
  - unfold st. rewrite <- reflexives_nonempty_iff.
    destruct (decide (reflexives (load_lines lines empty_state) = ∅)) as [He|He].
    + split; [intros Hn; by apply is_Some_None in Hn | intros Hne; by destruct Hne].
    + split; [done | by eauto].
Qed.

(** X14: the statistics agree with the reports of the same run: the counts of
    duplicate links, reflexive links, cycles and violations are the numbers
    of data rows of the corresponding reports (0 for a report that is not
    written); the two detector counts are present exactly when the check
    covers them; and no metric is written twice. *)
Theorem main_statistics_match_reports (fs : filesystem) (input : string)
    (check : check_mode) (ts : string) (lines : list string) :
  fs input = TextFile lines →
  check = ParentChild ∨ nx_contract nx →
  ∃ files stats, main fs input check ts = Ok files ∧
    report files ts "run_statistics" =
      Some (write_csv ts "run_statistics" ["Metric"; "Value"] (stat_rows stats)) ∧
    NoDup (keys stats) ∧
    dict_get stats "Duplicate Links"
      = Some (Int (row_count files ts "duplicate_edges")) ∧
    dict_get stats "Reflexive Links Found"
      = Some (Int (row_count files ts "self_links")) ∧
    dict_get stats "Parent-Child Cycles Found"
      = match check with
        | BroaderThan => None
        | _ => Some (Int (row_count files ts "parent_child_cycles"))
        end ∧
    dict_get stats "Broader-Than Violations Found"
      = match check with
        | ParentChild => None
        | _ => Some (Int (row_count files ts "broader_than_conflicts"))
        end.
Proof.
  intros Hfs Hnx.
  destruct (main_run C nx fs input check ts lines Hfs Hnx)
    as (cycles & out & Hrun & _ & _).
  set (st := load_lines lines empty_state) in *.
  match type of Hrun with
  | context [write_reports _ _ _ _ ?s _] => set (stats := s) in *
  end.
  exists (write_reports cycles out (repeats st) (reflexives st) stats ts), stats.
  split; [exact Hrun|].
  destruct (report_of_write_reports cycles out (repeats st) (reflexives st) stats ts)
    as (Hc & Hk & Hd & Hs & Hr).
  unfold row_count. rewrite Hc, Hk, Hd, Hs, Hr.
  assert (from_option (λ f : csv_file float, length (rows f)) 0
            match cycles with
            | [] => None
            | _ => Some (write_csv ts "parent_child_cycles" ["ID"; "Cycle"]
                                   (cycle_rows cycles))
            end = length cycles) as ->.
  { destruct cycles; [done|]. cbn [from_option rows write_csv].
    unfold cycle_rows. by rewrite length_imap. }
  assert (from_option (λ f : csv_file float, length (rows f)) 0
            match out with
            | [] => None
            | _ => Some (write_csv ts "broader_than_conflicts"
                                   ["ID"; "Source"; "Target"; "Path"]
                                   (contradiction_rows out))
            end = length out) as ->.
  { destruct out; [done|]. cbn [from_option rows write_csv].
    unfold contradiction_rows. by rewrite length_imap. }
  assert (from_option (λ f : csv_file float, length (rows f)) 0
            (if decide (repeats st = ∅) then None
             else Some (write_csv ts "duplicate_edges"
                                  ["Source"; "Target"; "Occurrences"]
                                  (duplicate_rows (repeats st))))
          = length (filter (λ kv : string * string * nat, 1 < kv.2)
                           (map_to_list (repeats st)))) as ->.
  { destruct (decide (repeats st = ∅)) as [He|He]; cbn [from_option rows write_csv].
    - rewrite He. by rewrite map_to_list_empty.
    - unfold duplicate_rows. by rewrite length_fmap. }
  assert (from_option (λ f : csv_file float, length (rows f)) 0
            (if decide (reflexives st = ∅) then None
             else Some (write_csv ts "self_links" ["CUI"; "Relation"]
                                  (self_link_rows (reflexives st))))
          = size (reflexives st)) as ->.
  { destruct (decide (reflexives st = ∅)) as [He|He]; cbn [from_option rows write_csv].
    - rewrite He. by rewrite size_empty.
    - unfold self_link_rows. by rewrite length_fmap. }
  unfold stats.
  split_and!; [done | | | | |].
  - destruct check; apply (bool_decide_unpack _); vm_compute; exact I.
  - destruct check; lookup_stat; reflexivity.
  - destruct check; lookup_stat; reflexivity.
  - destruct check; lookup_stat; reflexivity.
  - destruct check; lookup_stat; reflexivity.
Qed.

End entry_extras.

Section entry_witnesses.
Import Py Graph Loader Cycles NX Broader Main Reports Entry.

Lemma main_fails_only_on_input_witness :
  let clock := Build_Clock nat (λ earlier later, later - earlier) 0 1 2 3 4 5 in
  let fs := λ p : string,
    if String.eqb p "MRREL.RRF"
    then TextFile ["C1|a|b|PAR|C2|"; "C2|a|b|PAR|C1|"; "C1|a|b|RB|C2|"]
    else Missing in
  let run := @main clock bfs_nx fs "MRREL.RRF" Both "20240101_120000" in
  (fs "MRREL.RRF" = Missing → run = Raise FileNotFoundError) ∧
  (fs "MRREL.RRF" = Unreadable → run = Raise OSError) ∧
  (fs "MRREL.RRF" = Undecodable → run = Raise UnicodeDecodeError) ∧
  (∀ lines, fs "MRREL.RRF" = TextFile lines →
     ∃ files, run = Ok files ∧
              is_Some (report files "20240101_120000" "run_statistics")) ∧
  ((∃ e, run = Raise e) ↔
     fs "MRREL.RRF" = Missing ∨ fs "MRREL.RRF" = Unreadable ∨
     fs "MRREL.RRF" = Undecodable) ∧
  run ≠ NoFuel.
Proof.
  intros clock fs run.
  exact (main_fails_only_on_input clock bfs_nx fs "MRREL.RRF" Both "20240101_120000"
           (or_intror bfs_nx_contract)).
Defined.

Lemma main_reports_match_findings_witness :
  let clock := Build_Clock nat (λ earlier later, later - earlier) 0 1 2 3 4 5 in
  let lines := ["C1|a|b|PAR|C2|"; "C2|a|b|PAR|C1|"; "C1|a|b|RB|C2|"] in
  let fs := λ p : string, if String.eqb p "MRREL.RRF" then TextFile lines else Missing in
  let st := load_lines lines empty_state in
  ∃ files, @main clock bfs_nx fs "MRREL.RRF" Both "20240101_120000" = Ok files ∧
    (is_Some (report files "20240101_120000" "parent_child_cycles") ↔
       Both ≠ BroaderThan ∧ ∃ u, tc (λ a b, (a, b) ∈ child_relations st) u u) ∧
    (is_Some (report files "20240101_120000" "broader_than_conflicts") ↔
       Both ≠ ParentChild ∧ ∃ u, tc (λ a b, (a, b) ∈ broader_relations st) u u) ∧
    (is_Some (report files "20240101_120000" "duplicate_edges") ↔
       ∃ e line, line ∈ lines ∧ counted_under e line) ∧
    (is_Some (report files "20240101_120000" "self_links") ↔
       ∃ a r, relates lines r a a).
Proof.
  intros clock lines fs st.
  exact (main_reports_match_findings clock bfs_nx fs "MRREL.RRF" Both
           "20240101_120000" lines eq_refl (or_intror bfs_nx_contract)).
Defined.

Lemma main_statistics_match_reports_witness :
  let clock := Build_Clock nat (λ earlier later, later - earlier) 0 1 2 3 4 5 in
  let lines := ["C1|a|b|PAR|C2|"; "C2|a|b|PAR|C1|"; "C1|a|b|PAR|C2|"] in
  let fs := λ p : string, if String.eqb p "MRREL.RRF" then TextFile lines else Missing in
  let ts := "20240101_120000" in
  ∃ files stats, @main clock bfs_nx fs "MRREL.RRF" ParentChild ts = Ok files ∧
    report files ts "run_statistics" =
      Some (write_csv ts "run_statistics" ["Metric"; "Value"] (stat_rows stats)) ∧
    NoDup (keys stats) ∧
    dict_get stats "Duplicate Links"
      = Some (Int (row_count files ts "duplicate_edges")) ∧
    dict_get stats "Reflexive Links Found"
      = Some (Int (row_count files ts "self_links")) ∧
    dict_get stats "Parent-Child Cycles Found"
      = Some (Int (row_count files ts "parent_child_cycles")) ∧
    dict_get stats "Broader-Than Violations Found" = None.
Proof.
  intros clock lines fs ts.
  exact (main_statistics_match_reports clock bfs_nx fs "MRREL.RRF" ParentChild
           ts lines eq_refl (or_introl eq_refl)).
Defined.

End entry_witnesses.

